(** * Side-by-side text comparison page: change aggregation, view
    synchronisation and change navigation.

    A shallow embedding of the page component ([Page] in [page.tsx]): the
    functions of the component are Rocq functions over an explicit
    controller state, the calls into the PDF engine are steps over an
    explicit engine state whose answers are scripted, and rejected promises
    and thrown errors are results of a small state-and-error monad. *)

From Stdlib Require Import ZArith List String Ascii Bool Lia.
From Stdlib Require Import Numbers.DecimalString.
From Stdlib Require Import Permutation Sorted.
Import ListNotations.

Local Open Scope Z_scope.

(* ================================================================== *)
(** * JavaScript numbers *)
(* ================================================================== *)

(** The page only ever prints numbers, compares them with [===] and applies
    [+], [-] and [*] to them.  A number is kept as a finite decimal
    [mant * 10^-expo] and the arithmetic is exact on these; nothing below
    depends on how a double rounds. *)
Module JsNum.

Record num : Type := Dec { mant : Z; expo : nat }.

Definition of_Z (z : Z) : num := Dec z 0.

Definition pow10 (n : nat) : Z := 10 ^ Z.of_nat n.

(** [a === b] on numbers. *)
Definition eqb (a b : num) : bool :=
  mant a * pow10 (expo b) =? mant b * pow10 (expo a).

Definition add (a b : num) : num :=
  Dec (mant a * pow10 (expo b) + mant b * pow10 (expo a)) (expo a + expo b).

Definition sub (a b : num) : num :=
  Dec (mant a * pow10 (expo b) - mant b * pow10 (expo a)) (expo a + expo b).

Definition mul (a b : num) : num :=
  Dec (mant a * mant b) (expo a + expo b).

(** Drop the trailing zeros of the fraction. *)
Fixpoint strip (m : Z) (e : nat) : Z * nat :=
  match e with
  | O => (m, O)
  | S e' => if m mod 10 =? 0 then strip (m / 10) e' else (m, e)
  end.

Definition digits (n : Z) : string :=
  NilZero.string_of_uint (N.to_uint (Z.to_N n)).

Fixpoint zeros (n : nat) : string :=
  match n with
  | O => EmptyString
  | S n' => String "0" (zeros n')
  end.

Definition pad_left (width : nat) (s : string) : string :=
  (zeros (width - String.length s) ++ s)%string.

(** [Number::toString] (what a template literal prints), for the decimals
    that print without an exponent. *)
Definition toString (x : num) : string :=
  let '(m, e) := strip (mant x) (expo x) in
  let a := Z.abs m in
  ((if Z.ltb m 0 then "-" else EmptyString) ++
   digits (a / pow10 e) ++
   match e with
   | O => EmptyString
   | S _ => "." ++ pad_left e (digits (a mod pow10 e))
   end)%string.

(** [Math.round]: the nearest integer, halves going up. *)
Definition round (x : num) : num :=
  Dec ((2 * mant x + pow10 (expo x)) / (2 * pow10 (expo x))) 0.

End JsNum.

Definition num : Type := JsNum.num.

(* ================================================================== *)
(** * JavaScript strings *)
(* ================================================================== *)

(** A string is a sequence of code units; the units of this development are
    the Latin-1 ones, one [ascii] each. *)
Module JsString.

(** The class [\s] (which is also what [trim] removes), on Latin-1:
    TAB, LF, VT, FF, CR, SPACE and NBSP. *)
Definition is_space (c : ascii) : bool :=
  let n := nat_of_ascii c in
  ((9 <=? n) && (n <=? 13) || (n =? 32) || (n =? 160))%nat.

Definition starts_with_space (s : string) : bool :=
  match s with
  | EmptyString => false
  | String c _ => is_space c
  end.

Fixpoint trimStart (s : string) : string :=
  match s with
  | EmptyString => EmptyString
  | String c r => if is_space c then trimStart r else s
  end.

Fixpoint trimEnd (s : string) : string :=
  match s with
  | EmptyString => EmptyString
  | String c r =>
      match trimEnd r with
      | EmptyString => if is_space c then EmptyString else String c EmptyString
      | r' => String c r'
      end
  end.

(** [s.trim()] *)
Definition trim (s : string) : string := trimEnd (trimStart s).

(** [s.split(/\s+/)]: the pieces of [s] between its maximal runs of
    whitespace, the empty pieces before a leading run and after a
    trailing one included; the empty string gives one empty piece. *)
Fixpoint split_ws (s : string) : list string :=
  match s with
  | EmptyString => [EmptyString]
  | String c r =>
      if is_space c then
        if starts_with_space r then split_ws r else EmptyString :: split_ws r
      else
        match split_ws r with
        | p :: ps => String c p :: ps
        | [] => [String c EmptyString]
        end
  end.

(** Truthiness of a string: every string but the empty one. *)
Definition truthy (s : string) : bool :=
  match s with
  | EmptyString => false
  | String _ _ => true
  end.

Fixpoint ends_with_space (s : string) : bool :=
  match s with
  | EmptyString => false
  | String c r =>
      match r with
      | EmptyString => is_space c
      | String _ _ => ends_with_space r
      end
  end.

Fixpoint all_space (s : string) : bool :=
  match s with
  | EmptyString => true
  | String c r => is_space c && all_space r
  end.

End JsString.

(* ================================================================== *)
(** * JavaScript [Map] *)
(* ================================================================== *)

(** A [Map] with string keys iterates in insertion order, and [set] on a
    key that is present keeps the key's place: an association list in
    which [set] replaces in place and appends otherwise. *)
Module JsMap.
Section WithValues.
Context {V : Type}.

Fixpoint get (k : string) (m : list (string * V)) : option V :=
  match m with
  | [] => None
  | (k', v) :: rest => if String.eqb k' k then Some v else get k rest
  end.

Definition has (k : string) (m : list (string * V)) : bool :=
  match get k m with
  | Some _ => true
  | None => false
  end.

Fixpoint set (k : string) (v : V) (m : list (string * V)) : list (string * V) :=
  match m with
  | [] => [(k, v)]
  | (k', v') :: rest =>
      if String.eqb k' k then (k, v) :: rest else (k', v') :: set k v rest
  end.

Definition put_entry (m : list (string * V)) (kv : string * V) : list (string * V) :=
  set (fst kv) (snd kv) m.

(** [new Map(entries)] *)
Definition of_entries (entries : list (string * V)) : list (string * V) :=
  fold_left put_entry entries [].

Definition size (m : list (string * V)) : Z := Z.of_nat (List.length m).

Definition keys (m : list (string * V)) : list string := map fst m.
End WithValues.
End JsMap.

Definition Map (V : Type) : Type := list (string * V).

(* ================================================================== *)
(** * Data model *)
(* ================================================================== *)

(** [Geometry.Rect] of the engine. *)
Module Geometry.
Record Rect : Type := mkRect { left : num; top : num; width : num; height : num }.
End Geometry.

Module Color.
Record t : Type := mk { r : Z; g : Z; b : Z }.
End Color.
Definition Color : Type := Color.t.

Inductive Annotation : Type :=
| HighlightAnnotation (pageIndex : Z) (rects : list Geometry.Rect) (color : Color)
| RectangleAnnotation (pageIndex : Z) (boundingBox : Geometry.Rect)
    (strokeColor : Color) (strokeWidth : Z) (fillColor : option Color).

(** The [rect] array of a text block: left, top, width, height. *)
Record RectArray : Type := mkRectArray { rect0 : num; rect1 : num; rect2 : num; rect3 : num }.

Record TextBlock : Type := mkTextBlock { rect : RectArray }.

Inductive OperationType : Type := equal | delete | insert.

(** [DocumentComparison.Operation] *)
Record Operation : Type := mkOperation {
  type : OperationType;
  text : string;
  originalTextBlocks : list TextBlock;
  changedTextBlocks : list TextBlock
}.

Record Hunk : Type := mkHunk { operations : list Operation }.
Record ComparisonResult : Type := mkComparisonResult { hunks : list Hunk }.
Record DocumentComparisonResult : Type :=
  mkDocumentComparisonResult { comparisonResults : list ComparisonResult }.

(** What [instance.compareDocuments] resolved to for one page: a falsy
    value, an object without the [documentComparisonResults] key, or an
    object that has it. *)
Inductive PageComparison : Type :=
| ResultFalsy
| ResultWithoutCollection
| ResultWith (documentComparisonResults : list DocumentComparisonResult).

(** [interface ChangeOperation]: every field is optional. *)
Module Change.
Record ChangeOperation : Type := mk {
  deleteText : option string;
  insertText : option string;
  del : option bool;
  insert : option bool;
  pageIndex : option Z;
  originalRect : option Geometry.Rect;
  changedRect : option Geometry.Rect;
  annotationIds : option (list string)
}.

(** The object literal [{}]. *)
Definition empty : ChangeOperation :=
  mk None None None None None None None None.
End Change.

Definition ChangeOperation : Type := Change.ChangeOperation.

Definition deleteHighlightColor : Color := Color.mk 255 201 203.
Definition insertHighlightColor : Color := Color.mk 192 216 239.

(* ================================================================== *)
(** * Effects: state and thrown errors *)
(* ================================================================== *)

Inductive Exn : Type :=
| TypeError        (* a property read on [undefined] *)
| EngineRejected   (* the engine threw, or rejected the promise *)
| NotFound         (* [delete] of an identifier the view does not hold *)
| OutOfFuel.       (* of the model only: a loop was given too few turns *)

Inductive result (A : Type) : Type :=
| Ok (a : A)
| Throw (e : Exn).
Arguments Ok {A} a.
Arguments Throw {A} e.

(** A computation over a state [S]: the state it leaves and what it
    returned or threw; what was written before a throw stays written. *)
Definition M (S A : Type) : Type := S -> S * result A.

Definition ret {S A} (a : A) : M S A := fun s => (s, Ok a).

Definition throw {S A} (e : Exn) : M S A := fun s => (s, Throw e).

Definition bind {S A B} (m : M S A) (k : A -> M S B) : M S B :=
  fun s =>
    match m s with
    | (s', Ok a) => k a s'
    | (s', Throw e) => (s', Throw e)
    end.

Declare Scope js_scope.
Delimit Scope js_scope with js.
Notation "x <- c ;; k" := (bind c (fun x => k))
  (at level 61, c at next level, right associativity) : js_scope.
Notation "c ;;; k" := (bind c (fun _ => k))
  (at level 61, right associativity) : js_scope.

Definition gets {S A} (f : S -> A) : M S A := fun s => (s, Ok (f s)).

Definition modify {S} (f : S -> S) : M S unit := fun s => (f s, Ok tt).

(** [try { m } catch { h }] *)
Definition try_catch {S A} (m : M S A) (h : M S A) : M S A :=
  fun s =>
    match m s with
    | (s', Ok a) => (s', Ok a)
    | (s', Throw _) => h s'
    end.

(** [try { m } finally { f }] for an [f] that cannot throw. *)
Definition try_finally {S A} (m : M S A) (f : S -> S) : M S A :=
  fun s => let '(s', res) := m s in (f s', res).

(** Run a computation on a part of the state. *)
Definition focus {S T A} (proj : S -> T) (upd : T -> S -> S) (m : M T A) : M S A :=
  fun s => let '(t', res) := m (proj s) in (upd t' s, res).

Fixpoint for_each {S A B} (l : list A) (body : A -> B -> M S B) (acc : B) : M S B :=
  match l with
  | [] => ret acc
  | x :: rest => bind (body x acc) (for_each rest body)
  end.

(* ================================================================== *)
(** * The engine *)
(* ================================================================== *)

Inductive Zoom : Type :=
| ZoomNumber (z : num)
| ZoomMode (mode : string).

Definition zoom_eqb (a b : Zoom) : bool :=
  match a, b with
  | ZoomNumber x, ZoomNumber y => JsNum.eqb x y
  | ZoomMode x, ZoomMode y => String.eqb x y
  | _, _ => false
  end.

Record ViewState : Type := mkViewState { currentPageIndex : Z; zoom : Zoom }.

(** [viewState.set("zoom", z)] and [viewState.set("currentPageIndex", p)]:
    a new view state, the other field taken from the receiver. *)
Definition set_zoom (vs : ViewState) (z : Zoom) : ViewState :=
  mkViewState (currentPageIndex vs) z.
Definition set_currentPageIndex (vs : ViewState) (p : Z) : ViewState :=
  mkViewState p (zoom vs).

(** The element [.PSPDFKit-Scroll] of a view. *)
Record ScrollElement : Type := mkScroll { scrollTop : num; scrollLeft : num }.

Record PageInfo : Type := mkPageInfo { pageHeight : num }.

(** One loaded view.  The engine is not part of the page: what it answers
    to [create] and whether it refuses a [setViewState] are scripts, one
    entry consumed per call, so that every answer the page can observe is
    covered.  An exhausted [createScript] creates nothing and an exhausted
    [setViewStateScript] accepts. *)
Record Instance : Type := mkInstance {
  viewState : ViewState;
  scrollElement : option ScrollElement;
  pageInfos : list (option PageInfo);
  annotations : list (string * Annotation);
  createScript : list (option (list string));
  setViewStateScript : list bool
}.

Definition with_annotations (i : Instance) (a : list (string * Annotation))
    (script : list (option (list string))) : Instance :=
  mkInstance (viewState i) (scrollElement i) (pageInfos i) a script
    (setViewStateScript i).

Definition with_viewState (i : Instance) (vs : ViewState) : Instance :=
  mkInstance vs (scrollElement i) (pageInfos i) (annotations i)
    (createScript i) (setViewStateScript i).

Definition with_setViewStateScript (i : Instance) (sc : list bool) : Instance :=
  mkInstance (viewState i) (scrollElement i) (pageInfos i) (annotations i)
    (createScript i) sc.

Definition with_scrollElement (i : Instance) (e : option ScrollElement) : Instance :=
  mkInstance (viewState i) e (pageInfos i) (annotations i)
    (createScript i) (setViewStateScript i).

(** [await instance.create(annotation)]: the identifiers of the created
    annotations. *)
Definition create (annotation : Annotation) : M Instance (list string) :=
  fun i =>
    match createScript i with
    | [] => (i, Ok [])
    | None :: script => (with_annotations i (annotations i) script, Throw EngineRejected)
    | Some ids :: script =>
        (with_annotations i
           (annotations i ++ map (fun id => (id, annotation)) ids) script,
         Ok ids)
    end.

(** [await instance.delete(annotationId)] *)
Definition delete_annotation (annotationId : string) : M Instance unit :=
  fun i =>
    if existsb (fun a => String.eqb (fst a) annotationId) (annotations i) then
      (with_annotations i
         (filter (fun a => negb (String.eqb (fst a) annotationId)) (annotations i))
         (createScript i),
       Ok tt)
    else (i, Throw NotFound).

(** The two views of one run of [compareDocuments]. *)
Record Viewers : Type := mkViewers {
  originalInstance : Instance;
  changedInstance : Instance
}.

Definition on_original {A} (m : M Instance A) : M Viewers A :=
  focus originalInstance (fun i v => mkViewers i (changedInstance v)) m.

Definition on_changed {A} (m : M Instance A) : M Viewers A :=
  focus changedInstance (fun i v => mkViewers (originalInstance v) i) m.

(* ================================================================== *)
(** * Change aggregation ([compareDocuments], the loop over the pages) *)
(* ================================================================== *)

Local Open Scope js_scope.

(** The template literal that builds a coordinate key from a [rect]
    array. *)
Definition coordinate_of (rect : RectArray) : string :=
  (JsNum.toString (rect0 rect) ++ "," ++ JsNum.toString (rect1 rect))%string.

(** [new Geometry.Rect({left: rect[0], top: rect[1], width: rect[2],
    height: rect[3]})] *)
Definition rect_of (rect : RectArray) : Geometry.Rect :=
  Geometry.mkRect (rect0 rect) (rect1 rect) (rect2 rect) (rect3 rect).

(** [blocks[0].rect]: a [TypeError] when there is no first block. *)
Definition first_rect {S} (blocks : list TextBlock) : M S RectArray :=
  match blocks with
  | block :: _ => ret (rect block)
  | [] => throw TypeError
  end.

(** [created.length > 0 ? created[0].id : null] *)
Definition first_id (created : list string) : option string :=
  match created with
  | id :: _ => Some id
  | [] => None
  end.

(** [...(annotationId ? [annotationId] : [])] *)
Definition id_entries (annotationId : option string) : list string :=
  match annotationId with
  | Some id => if JsString.truthy id then [id] else []
  | None => []
  end.

(** [existing.annotationIds || []] *)
Definition ids_or_empty (ids : option (list string)) : list string :=
  match ids with
  | Some l => l
  | None => []
  end.

Definition highlight (pageIndex : Z) (rect : Geometry.Rect) (color : Color) : Annotation :=
  HighlightAnnotation pageIndex [rect] color.

(** The object the [delete] case writes: the spread of the entry that is
    already at the coordinate, when there is one, under the fields of the
    delete. *)
Definition delete_entry (pageIndex : Z) (operation : Operation)
    (originalRect : Geometry.Rect) (annotationId : option string)
    (existing : option ChangeOperation) : ChangeOperation :=
  match existing with
  | Some existing =>
      Change.mk (Some (text operation)) (Change.insertText existing)
        (Some true) (Change.insert existing)
        (Some pageIndex)
        (Some originalRect) (Change.changedRect existing)
        (Some (ids_or_empty (Change.annotationIds existing) ++ id_entries annotationId))
  | None =>
      Change.mk (Some (text operation)) None (Some true) None
        (Some pageIndex) (Some originalRect) None
        (Some (id_entries annotationId))
  end.

(** The object the [insert] case writes. *)
Definition insert_entry (pageIndex : Z) (operation : Operation)
    (changedRect : Geometry.Rect) (annotationId : option string)
    (existing : option ChangeOperation) : ChangeOperation :=
  match existing with
  | Some existing =>
      Change.mk (Change.deleteText existing) (Some (text operation))
        (Change.del existing) (Some true)
        (Some pageIndex)
        (Change.originalRect existing) (Some changedRect)
        (Some (ids_or_empty (Change.annotationIds existing) ++ id_entries annotationId))
  | None =>
      Change.mk None (Some (text operation)) None (Some true)
        (Some pageIndex) None (Some changedRect)
        (Some (id_entries annotationId))
  end.

(** [processOperation], the closure of one page: [pageIndex] and the
    page's [changes] map are the variables it captures.  The test
    [changes.has(coordinate)] is the case analysis of [delete_entry] and
    [insert_entry]. *)
Definition processOperation (pageIndex : Z) (operation : Operation)
    (changes : Map ChangeOperation) : M Viewers (Map ChangeOperation) :=
  match type operation with
  | delete =>
      rect <- first_rect (originalTextBlocks operation) ;;
      let coordinate := coordinate_of rect in
      let originalRect := rect_of rect in
      created <- on_original (create (highlight pageIndex originalRect deleteHighlightColor)) ;;
      let annotationId := first_id created in
      ret (JsMap.set coordinate
             (delete_entry pageIndex operation originalRect annotationId
                (JsMap.get coordinate changes))
             changes)
  | insert =>
      rect <- first_rect (changedTextBlocks operation) ;;
      let coordinate := coordinate_of rect in
      let changedRect := rect_of rect in
      created <- on_changed (create (highlight pageIndex changedRect insertHighlightColor)) ;;
      let annotationId := first_id created in
      ret (JsMap.set coordinate
             (insert_entry pageIndex operation changedRect annotationId
                (JsMap.get coordinate changes))
             changes)
  | equal => ret changes
  end.

Definition is_delete (op : Operation) : bool :=
  match type op with delete => true | _ => false end.
Definition is_insert (op : Operation) : bool :=
  match type op with insert => true | _ => false end.
Definition is_equal (op : Operation) : bool :=
  match type op with equal => true | _ => false end.

(** The object the replacement branch writes. *)
Definition replacement_entry (pageIndex : Z) (deleteOp insertOp : Operation)
    (originalRect changedRect : Geometry.Rect)
    (deleteAnnotationId insertAnnotationId : option string) : ChangeOperation :=
  Change.mk (Some (text deleteOp)) (Some (text insertOp))
    (Some true) (Some true) (Some pageIndex)
    (Some originalRect) (Some changedRect)
    (Some (id_entries deleteAnnotationId ++ id_entries insertAnnotationId)).

(** The rectangle an operation is keyed by when it is at the cursor: the
    first block of the original document for a delete (alone or followed
    by its insert), the first block of the changed document for an
    insert. *)
Definition keyed_rect (op : Operation) : option RectArray :=
  match type op with
  | delete => option_map rect (hd_error (originalTextBlocks op))
  | insert => option_map rect (hd_error (changedTextBlocks op))
  | equal => None
  end.

(** The key with the origin rounded first, as the description of the data
    model words it. *)
Definition rounded_coordinate_of (rect : RectArray) : string :=
  (JsNum.toString (JsNum.round (rect0 rect)) ++ "," ++
   JsNum.toString (JsNum.round (rect1 rect)))%string.

(** The body of the replacement branch: a delete [deleteOp] at the cursor
    and the insert [insertOp] after it. *)
Definition processReplacement (pageIndex : Z) (deleteOp insertOp : Operation)
    (changes : Map ChangeOperation) : M Viewers (Map ChangeOperation) :=
  deleteRect <- first_rect (originalTextBlocks deleteOp) ;;
  let coordinate := coordinate_of deleteRect in
  let originalRect := rect_of deleteRect in
  insertRect <- first_rect (changedTextBlocks insertOp) ;;
  let changedRect := rect_of insertRect in
  createdDelete <- on_original (create (highlight pageIndex originalRect deleteHighlightColor)) ;;
  let deleteAnnotationId := first_id createdDelete in
  createdInsert <- on_changed (create (highlight pageIndex changedRect insertHighlightColor)) ;;
  let insertAnnotationId := first_id createdInsert in
  ret (JsMap.set coordinate
         (replacement_entry pageIndex deleteOp insertOp originalRect changedRect
            deleteAnnotationId insertAnnotationId)
         changes).

(** The insert that makes the operation at cursor [i] a replacement:
    [currentOp.type === "delete" && i + 1 < operations.length &&
     operations[i + 1].type === "insert"]. *)
Definition replacement_partner (operations : list Operation) (i : nat)
    (currentOp : Operation) : option Operation :=
  if is_delete currentOp && (i + 1 <? List.length operations)%nat then
    match nth_error operations (i + 1) with
    | Some insertOp => if is_insert insertOp then Some insertOp else None
    | None => None
    end
  else None.

(** One turn of the [while (i < operations.length)] loop: the cursor and
    the page's map after it. *)
Definition walk_step (pageIndex : Z) (operations : list Operation) (i : nat)
    (changes : Map ChangeOperation) : M Viewers (nat * Map ChangeOperation) :=
  match nth_error operations i with
  | None => throw TypeError
  | Some currentOp =>
      match replacement_partner operations i currentOp with
      | Some insertOp =>
          changes' <- processReplacement pageIndex currentOp insertOp changes ;;
          ret ((i + 2)%nat, changes')
      | None =>
          changes' <- processOperation pageIndex currentOp changes ;;
          ret ((i + 1)%nat, changes')
      end
  end.

(** The loop; [fuel] bounds the number of turns. *)
Fixpoint walk_loop (fuel : nat) (pageIndex : Z) (operations : list Operation)
    (i : nat) (changes : Map ChangeOperation) : M Viewers (Map ChangeOperation) :=
  if (i <? List.length operations)%nat then
    match fuel with
    | O => throw OutOfFuel
    | S fuel' =>
        step <- walk_step pageIndex operations i changes ;;
        walk_loop fuel' pageIndex operations (fst step) (snd step)
    end
  else ret changes.

(** [hunk.operations.filter((op) => op.type !== "equal")] *)
Definition filter_operations (ops : list Operation) : list Operation :=
  filter (fun op => negb (is_equal op)) ops.

(** One hunk: filter, then walk from cursor 0.  Every turn moves the cursor
    forward, so as many turns as there are operations are enough. *)
Definition process_hunk (pageIndex : Z) (hunk : Hunk)
    (changes : Map ChangeOperation) : M Viewers (Map ChangeOperation) :=
  let operations := filter_operations (operations hunk) in
  walk_loop (List.length operations) pageIndex operations 0 changes.

(** The nested loops over the result of one page.  A result without the
    collection leaves the page's map empty. *)
Definition process_comparison (pageIndex : Z) (comparisonResult : PageComparison) :
    M Viewers (Map ChangeOperation) :=
  match comparisonResult with
  | ResultWith documentComparisonResults =>
      for_each documentComparisonResults
        (fun docComparison =>
           for_each (comparisonResults docComparison)
             (fun result => for_each (hunks result) (process_hunk pageIndex)))
        []
  | ResultFalsy | ResultWithoutCollection => ret []
  end.

(** [new Map([...operationsRef.current, ...changes])] *)
Definition merge_changes (global changes : Map ChangeOperation) : Map ChangeOperation :=
  JsMap.of_entries (global ++ changes).

(** The annotation identifier to change index lookup: every identifier of
    the change at position [index] is set to [index]. *)
Definition build_annotationMap (ops : Map ChangeOperation) : Map Z :=
  fst (fold_left
         (fun (acc : Map Z * Z) (entry : string * ChangeOperation) =>
            (fold_left (fun m annotationId => JsMap.set annotationId (snd acc) m)
               (ids_or_empty (Change.annotationIds (snd entry))) (fst acc),
             snd acc + 1))
         ops ([], 0)).

(* ================================================================== *)
(** * The controller state *)
(* ================================================================== *)

Inductive Side : Type := Original | Changed.

Definition other (s : Side) : Side :=
  match s with Original => Changed | Changed => Original end.

Definition instance_of (s : Side) (v : Viewers) : Instance :=
  match s with Original => originalInstance v | Changed => changedInstance v end.

Definition put_instance (s : Side) (i : Instance) (v : Viewers) : Viewers :=
  match s with
  | Original => mkViewers i (changedInstance v)
  | Changed => mkViewers (originalInstance v) i
  end.

(** Writes of the re-entrancy guard, kept as a history (the history is not
    in the page; it is what makes "once per pass" something to state). *)
Inductive GuardWrite : Type :=
| GuardSet (source : Side)
| GuardCleared (source : Side).

(** The state and the refs of the component.  [instances] is
    [originalInstanceRef.current] and [changedInstanceRef.current], which
    are assigned together and hold the very views the closures of
    [compareDocuments] capture. *)
Record World : Type := mkWorld {
  operationsMap : Map ChangeOperation;
  selectedChangeIndex : Z;
  isScrollLocked : bool;
  isScrollLockedRef : bool;
  isSyncingRef : bool;
  operationsRef : Map ChangeOperation;
  instances : option Viewers;
  selectionAnnotationIdsRef : list string;
  annotationToChangeIndexRef : Map Z;
  guardWrites : list GuardWrite
}.

Definition set_operationsMap (m : Map ChangeOperation) (w : World) : World :=
  mkWorld m (selectedChangeIndex w) (isScrollLocked w) (isScrollLockedRef w)
    (isSyncingRef w) (operationsRef w) (instances w)
    (selectionAnnotationIdsRef w) (annotationToChangeIndexRef w) (guardWrites w).

Definition setSelectedChangeIndex (n : Z) (w : World) : World :=
  mkWorld (operationsMap w) n (isScrollLocked w) (isScrollLockedRef w)
    (isSyncingRef w) (operationsRef w) (instances w)
    (selectionAnnotationIdsRef w) (annotationToChangeIndexRef w) (guardWrites w).


Definition set_isSyncingRef (v : bool) (ev : GuardWrite) (w : World) : World :=
  mkWorld (operationsMap w) (selectedChangeIndex w) (isScrollLocked w)
    (isScrollLockedRef w) v (operationsRef w) (instances w)
    (selectionAnnotationIdsRef w) (annotationToChangeIndexRef w)
    (guardWrites w ++ [ev]).

Definition set_operationsRef (m : Map ChangeOperation) (w : World) : World :=
  mkWorld (operationsMap w) (selectedChangeIndex w) (isScrollLocked w)
    (isScrollLockedRef w) (isSyncingRef w) m (instances w)
    (selectionAnnotationIdsRef w) (annotationToChangeIndexRef w) (guardWrites w).

Definition set_instances (v : option Viewers) (w : World) : World :=
  mkWorld (operationsMap w) (selectedChangeIndex w) (isScrollLocked w)
    (isScrollLockedRef w) (isSyncingRef w) (operationsRef w) v
    (selectionAnnotationIdsRef w) (annotationToChangeIndexRef w) (guardWrites w).

Definition set_selectionAnnotationIdsRef (l : list string) (w : World) : World :=
  mkWorld (operationsMap w) (selectedChangeIndex w) (isScrollLocked w)
    (isScrollLockedRef w) (isSyncingRef w) (operationsRef w) (instances w)
    l (annotationToChangeIndexRef w) (guardWrites w).

Definition set_annotationToChangeIndexRef (m : Map Z) (w : World) : World :=
  mkWorld (operationsMap w) (selectedChangeIndex w) (isScrollLocked w)
    (isScrollLockedRef w) (isSyncingRef w) (operationsRef w) (instances w)
    (selectionAnnotationIdsRef w) m (guardWrites w).

(** The component as it first renders. *)
Definition initial_world : World :=
  mkWorld [] 0 true true false [] None [] [] [].

(** A step on the views the closures hold.  The closures exist only once
    the views are loaded; on a state without views the property read
    throws. *)
Definition on_viewers {A} (m : M Viewers A) : M World A :=
  fun w =>
    match instances w with
    | Some v => let '(v', res) := m v in (set_instances (Some v') w, res)
    | None => (w, Throw TypeError)
    end.

Definition on_instance {A} (s : Side) (m : M Instance A) : M World A :=
  on_viewers (focus (instance_of s) (put_instance s) m).

(** [updateOperationsMap] *)
Definition updateOperationsMap (existingMap : Map ChangeOperation) (w : World) : World :=
  set_operationsMap (JsMap.of_entries existingMap) w.


(* ================================================================== *)
(** * View synchronisation *)
(* ================================================================== *)

Section Listeners.

(** What runs when the view of a side fires
    [viewState.currentPageIndex.change] or [viewState.zoom.change]. *)
Variable listener : Side -> World -> World.

(** [instance.setViewState(vs)]: the engine refuses (and throws) or
    installs [vs], and then fires, before it returns, the change events
    of the fields whose value changed. *)
Definition setViewState (s : Side) (vs : ViewState) : M World unit :=
  i <- on_instance s (gets (fun i => i)) ;;
  match setViewStateScript i with
  | true :: script =>
      on_instance s (modify (fun i => with_setViewStateScript i script)) ;;;
      throw EngineRejected
  | script =>
      on_instance s
        (modify (fun i => with_viewState (with_setViewStateScript i (tl script)) vs)) ;;;
      (if currentPageIndex (viewState i) =? currentPageIndex vs then ret tt
       else modify (listener s)) ;;;
      (if zoom_eqb (zoom (viewState i)) (zoom vs) then ret tt
       else modify (listener s))
  end.

(** The [try] block of a pass from the view [source] to the other one. *)
Definition sync_block (source : Side) : M World unit :=
  let target := other source in
  sourceViewState <- on_instance source (gets viewState) ;;
  targetViewState <- on_instance target (gets viewState) ;;
  let sourcePage := currentPageIndex sourceViewState in
  let targetPage := currentPageIndex targetViewState in
  (if negb (zoom_eqb (zoom targetViewState) (zoom sourceViewState)) then
     setViewState target (set_zoom targetViewState (zoom sourceViewState))
   else ret tt) ;;;
  if negb (targetPage =? sourcePage) then
    setViewState target (set_currentPageIndex targetViewState sourcePage)
  else
    sourceScroll <- on_instance source (gets scrollElement) ;;
    targetScroll <- on_instance target (gets scrollElement) ;;
    match sourceScroll, targetScroll with
    | Some src, Some _ =>
        on_instance target
          (modify (fun i =>
             with_scrollElement i (Some (mkScroll (scrollTop src) (scrollLeft src)))))
    | _, _ => ret tt
    end.

(** [syncChangedToOriginal] ([source] is the changed view) and
    [syncOriginalToChanged] ([source] is the original view): the two
    functions are the same text with the views exchanged. *)
Definition sync_from (source : Side) : M World unit :=
  fun w =>
    if negb (isScrollLockedRef w) || isSyncingRef w then (w, Ok tt)
    else
      try_finally (sync_block source)
        (set_isSyncingRef false (GuardCleared source))
        (set_isSyncingRef true (GuardSet source) w).

End Listeners.

(** The listeners registered on the two views: the view of a side runs the
    pass that starts at that side.  [depth] is how deep the engine may
    re-enter the listeners from inside [setViewState]. *)
Fixpoint listener (depth : nat) (s : Side) (w : World) : World :=
  match depth with
  | O => w
  | S depth' => fst (sync_from (listener depth') s w)
  end.

Definition syncChangedToOriginal (depth : nat) : M World unit :=
  sync_from (listener depth) Changed.

Definition syncOriginalToChanged (depth : nat) : M World unit :=
  sync_from (listener depth) Original.

(** The three events a view fires at the synchroniser. *)
Inductive ViewEvent : Type := ScrollEvent | PageChangeEvent | ZoomChangeEvent.

(** The handler of every one of them is the pass that starts at the view
    (the scroll handler runs it from an animation frame). *)
Definition handle_view_event (depth : nat) (s : Side) (ev : ViewEvent) : M World unit :=
  match s with
  | Changed => syncChangedToOriginal depth
  | Original => syncOriginalToChanged depth
  end.

(* ================================================================== *)
(** * Selection and navigation *)
(* ================================================================== *)

Definition ten : num := JsNum.of_Z 10.
Definition three : num := JsNum.of_Z 3.
Definition six : num := JsNum.of_Z 6.

(** The [for] loop of [scrollToPage]: the heights, scaled by the zoom, of
    the pages before the target, each followed by a gap of 10. *)
Definition cumulative_height (i : Instance) (targetPageIndex : Z) : num :=
  fold_left
    (fun cumulativeHeight page =>
       match nth_error (pageInfos i) page with
       | Some (Some pageInfo) =>
           let zoomValue :=
             match zoom (viewState i) with
             | ZoomNumber z => z
             | ZoomMode _ => JsNum.of_Z 1
             end in
           JsNum.add (JsNum.add cumulativeHeight (JsNum.mul (pageHeight pageInfo) zoomValue)) ten
       | _ => cumulativeHeight
       end)
    (seq 0 (Z.to_nat targetPageIndex)) (JsNum.of_Z 0).

(** [scrollToPage(instance, targetPageIndex, offsetTop)]; the smooth
    scroll is taken at its end position. *)
Definition scrollToPage (depth : nat) (s : Side) (targetPageIndex : Z) (offsetTop : num) :
    M World unit :=
  i <- on_instance s (gets (fun i => i)) ;;
  match scrollElement i with
  | None => ret tt
  | Some scrollContainer =>
      let cumulativeHeight := JsNum.add (cumulative_height i targetPageIndex) offsetTop in
      on_instance s
        (modify (fun i =>
           with_scrollElement i
             (Some (mkScroll cumulativeHeight (scrollLeft scrollContainer))))) ;;;
      viewState <- on_instance s (gets viewState) ;;
      setViewState (listener depth) s (set_currentPageIndex viewState targetPageIndex)
  end.

Definition borderColor : Color := Color.mk 59 130 246.

Definition expand (rect : Geometry.Rect) : Geometry.Rect :=
  Geometry.mkRect (JsNum.sub (Geometry.left rect) three) (JsNum.sub (Geometry.top rect) three)
    (JsNum.add (Geometry.width rect) six) (JsNum.add (Geometry.height rect) six).

Definition is_true (flag : option bool) : bool :=
  match flag with Some true => true | _ => false end.

(** One side of [highlightSelectedChange]: the border around the deleted
    text in the original view, or around the inserted text in the changed
    view. *)
Definition add_border (s : Side) (flag : option bool) (rect : option Geometry.Rect)
    (pageIndex : option Z) : M World unit :=
  match is_true flag, rect, pageIndex with
  | true, Some rect, Some pageIndex =>
      createdAnnotations <-
        on_instance s
          (create (RectangleAnnotation pageIndex (expand rect) borderColor 2 None)) ;;
      match createdAnnotations with
      | created :: _ =>
          modify (fun w =>
            set_selectionAnnotationIdsRef (selectionAnnotationIdsRef w ++ [created]) w)
      | [] => ret tt
      end
  | _, _, _ => ret tt
  end.

(** [highlightSelectedChange] *)
Definition highlightSelectedChange (operation : ChangeOperation) : M World unit :=
  fun w =>
    match instances w with
    | None => (w, Ok tt)
    | Some _ =>
        (for_each (selectionAnnotationIdsRef w)
           (fun annotationId _ =>
              try_catch (on_instance Original (delete_annotation annotationId))
                (try_catch (on_instance Changed (delete_annotation annotationId))
                   (ret tt)))
           tt ;;;
         modify (set_selectionAnnotationIdsRef []) ;;;
         add_border Original (Change.del operation) (Change.originalRect operation)
           (Change.pageIndex operation) ;;;
         add_border Changed (Change.insert operation) (Change.changedRect operation)
           (Change.pageIndex operation)) w
    end.

(** The part the three click handlers share: go to the page of the change
    in both views and redraw the selection border. *)
Definition show_change (depth : nat) (operation : ChangeOperation) : M World unit :=
  fun w =>
    match Change.pageIndex operation, instances w with
    | Some pageIndex, Some _ =>
        (scrollToPage depth Original pageIndex (JsNum.of_Z 0) ;;;
         scrollToPage depth Changed pageIndex (JsNum.of_Z 0) ;;;
         highlightSelectedChange operation) w
    | _, _ => (w, Ok tt)
    end.

(** [handleChangeClick] *)
Definition handleChangeClick (depth : nat) (operation : ChangeOperation) (index : Z) :
    M World unit :=
  modify (setSelectedChangeIndex index) ;;;
  show_change depth operation.

(** [changesArray[index]], destructured: a [TypeError] out of range. *)
Definition entry_at {S} (changesArray : Map ChangeOperation) (index : Z) :
    M S ChangeOperation :=
  if index <? 0 then throw TypeError
  else
    match nth_error changesArray (Z.to_nat index) with
    | Some (_, operation) => ret operation
    | None => throw TypeError
    end.

(** [handlePreviousChange] *)
Definition handlePreviousChange (depth : nat) : M World unit :=
  fun w =>
    let changesArray := operationsMap w in
    if selectedChangeIndex w >? 0 then
      let newIndex := selectedChangeIndex w - 1 in
      (modify (setSelectedChangeIndex newIndex) ;;;
       operation <- entry_at changesArray newIndex ;;
       show_change depth operation) w
    else (w, Ok tt).

(** [handleNextChange] *)
Definition handleNextChange (depth : nat) : M World unit :=
  fun w =>
    let changesArray := operationsMap w in
    if selectedChangeIndex w <? Z.of_nat (List.length changesArray) - 1 then
      let newIndex := selectedChangeIndex w + 1 in
      (modify (setSelectedChangeIndex newIndex) ;;;
       operation <- entry_at changesArray newIndex ;;
       show_change depth operation) w
    else (w, Ok tt).

(** [handleAnnotationClick] *)
Definition handleAnnotationClick (depth : nat) (annotationId : string) : M World unit :=
  fun w =>
    match JsMap.get annotationId (annotationToChangeIndexRef w) with
    | Some changeIndex =>
        let changesArray := operationsRef w in
        if (0 <? JsMap.size changesArray) && (changeIndex <? Z.of_nat (List.length changesArray))
        then (operation <- entry_at changesArray changeIndex ;;
              handleChangeClick depth operation changeIndex) w
        else (w, Ok tt)
    | None => (w, Ok tt)
    end.

(* ================================================================== *)
(** * [compareDocuments] *)
(* ================================================================== *)

(** What the loaded script gives one run: the two views [load] resolves
    to, and what [compareDocuments] of the original view resolves to for
    each page ([totalPageCount] is the number of the pages). *)
Record NutrientViewer : Type := mkNutrientViewer {
  loadOriginal : Instance;
  loadChanged : Instance;
  pageComparisons : list PageComparison
}.

(** The body of the loop over the pages, from page [pageIndex] on. *)
Fixpoint page_loop (pageIndex : Z) (pages : list PageComparison) : M World unit :=
  match pages with
  | [] => ret tt
  | comparisonResult :: rest =>
      changes <- on_viewers (process_comparison pageIndex comparisonResult) ;;
      modify (fun w => set_operationsRef (merge_changes (operationsRef w) changes) w) ;;;
      page_loop (pageIndex + 1) rest
  end.

(** [compareDocuments]; [window.NutrientViewer] may be absent. *)
Definition compareDocuments (viewer : option NutrientViewer) : M World unit :=
  match viewer with
  | None => ret tt
  | Some sdk =>
      modify (set_instances (Some (mkViewers (loadOriginal sdk) (loadChanged sdk)))) ;;;
      page_loop 0 (pageComparisons sdk) ;;;
      modify (fun w => updateOperationsMap (operationsRef w) w) ;;;
      modify (fun w => set_annotationToChangeIndexRef (build_annotationMap (operationsRef w)) w)
  end.

(* ================================================================== *)
(** * Word counts *)
(* ================================================================== *)

(** [countWords]: [text ? text.trim().split(/\s+/).length : 0]; [None] is
    [undefined]. *)
Definition countWords (text : option string) : Z :=
  match text with
  | Some text =>
      if JsString.truthy text
      then Z.of_nat (List.length (JsString.split_ws (JsString.trim text)))
      else 0
  | None => 0
  end.

(** The number of maximal runs of characters that are not whitespace. *)
Fixpoint runs_after (after_space : bool) (s : string) : nat :=
  match s with
  | EmptyString => O
  | String c rest =>
      if JsString.is_space c then runs_after true rest
      else ((if after_space then 1 else 0) + runs_after false rest)%nat
  end.

Definition word_runs (s : string) : nat := runs_after true s.

(* ================================================================== *)
(** * The earlier page ([src/app/page.tsx]) *)
(* ================================================================== *)

(** The earlier version of the page keeps no rectangles and no annotation
    identifiers in a change, collects the rectangles of a page and creates
    one highlight annotation per view after the page. *)
Module Legacy.

(** What the closures of one page write: the two lists of rectangles and
    the page's map. *)
Record PageState : Type := mkPageState {
  originalInstanceRects : list Geometry.Rect;
  changedInstanceRects : list Geometry.Rect;
  changes : Map ChangeOperation
}.

Definition change (deleteText insertText : option string) (del insert : option bool)
    (pageIndex : Z) : ChangeOperation :=
  Change.mk deleteText insertText del insert (Some pageIndex) None None None.

(** [{...changes.get(coordinate), ...}] *)
Definition existing_or_empty (coordinate : string) (m : Map ChangeOperation) :
    ChangeOperation :=
  match JsMap.get coordinate m with
  | Some existing => existing
  | None => Change.empty
  end.

(** [processOperation] *)
Definition processOperation (pageIndex : Z) (operation : Operation) : M PageState unit :=
  rect <- first_rect (changedTextBlocks operation) ;;
  let coordinate := coordinate_of rect in
  match type operation with
  | delete =>
      originalRect <- first_rect (originalTextBlocks operation) ;;
      modify (fun st =>
        let existing := existing_or_empty coordinate (changes st) in
        mkPageState
          (originalInstanceRects st ++ [rect_of originalRect])
          (changedInstanceRects st)
          (JsMap.set coordinate
             (change (Some (text operation)) (Change.insertText existing)
                (Some true) (Change.insert existing) pageIndex)
             (changes st)))
  | insert =>
      modify (fun st =>
        let existing := existing_or_empty coordinate (changes st) in
        mkPageState
          (originalInstanceRects st)
          (changedInstanceRects st ++ [rect_of rect])
          (JsMap.set coordinate
             (change (Change.deleteText existing) (Some (text operation))
                (Change.del existing) (Some true) pageIndex)
             (changes st)))
  | equal => ret tt
  end.

(** The nested [forEach] loops over the result of one page. *)
Definition process_comparison (pageIndex : Z) (comparisonResult : PageComparison) :
    M PageState unit :=
  match comparisonResult with
  | ResultWith documentComparisonResults =>
      for_each documentComparisonResults
        (fun docComparison _ =>
           for_each (comparisonResults docComparison)
             (fun result _ =>
                for_each (hunks result)
                  (fun hunk _ =>
                     for_each (operations hunk)
                       (fun operation _ =>
                          if negb (is_equal operation)
                          then processOperation pageIndex operation
                          else ret tt)
                       tt)
                  tt)
             tt)
        tt
  | ResultFalsy | ResultWithoutCollection => ret tt
  end.

(** [createHighlightAnnotations] *)
Definition createHighlightAnnotations (pageIndex : Z)
    (originalRects changedRects : list Geometry.Rect) : M Viewers unit :=
  on_original (create (HighlightAnnotation pageIndex originalRects deleteHighlightColor)) ;;;
  on_changed (create (HighlightAnnotation pageIndex changedRects insertHighlightColor)) ;;;
  ret tt.

(** The body of the loop over the pages, on the global index and the
    views. *)
Definition process_page (pageIndex : Z) (comparisonResult : PageComparison) :
    M (Map ChangeOperation * Viewers) unit :=
  fun s =>
    match process_comparison pageIndex comparisonResult (mkPageState [] [] []) with
    | (st, Ok _) =>
        focus snd (fun v s => (fst s, v))
          (createHighlightAnnotations pageIndex
             (originalInstanceRects st) (changedInstanceRects st))
          (merge_changes (fst s) (changes st), snd s)
    | (_, Throw e) => (s, Throw e)
    end.

(** [x || 0] on a number that may be absent. *)
Definition or_zero (x : option num) : num :=
  match x with
  | Some n => if JsNum.eqb n (JsNum.of_Z 0) then JsNum.of_Z 0 else n
  | None => JsNum.of_Z 0
  end.

(** [syncViewState], the one listener of the earlier page: it is
    registered on the changed view only, so nothing listens to the
    original view it writes. *)
Definition syncViewState : M World unit :=
  changedScrollElement <- on_instance Changed (gets scrollElement) ;;
  changedViewState <- on_instance Changed (gets viewState) ;;
  let pageNumber := currentPageIndex changedViewState in
  let zoomLevel := zoom changedViewState in
  let left := or_zero (option_map scrollLeft changedScrollElement) in
  let top := or_zero (option_map scrollTop changedScrollElement) in
  viewState <- on_instance Original (gets viewState) ;;
  setViewState (fun _ w => w) Original (set_currentPageIndex viewState pageNumber) ;;;
  setViewState (fun _ w => w) Original (set_zoom viewState zoomLevel) ;;;
  originalScrollElement <- on_instance Original (gets scrollElement) ;;
  match originalScrollElement with
  | Some _ =>
      on_instance Original (modify (fun i => with_scrollElement i (Some (mkScroll top left))))
  | None => ret tt
  end.

End Legacy.

(* ================================================================== *)
(** * Properties of the aggregator, as statements *)
(* ================================================================== *)

(** Every turn of the loop that processes a delete or an insert writes
    the page's map at the key [key_of] gives for the rectangle the
    operation is keyed by. *)
Definition cursor_writes_at (key_of : RectArray -> string) : Prop :=
  forall pageIndex operations i changes v v' i' changes' op,
    walk_step pageIndex operations i changes v = (v', Ok (i', changes')) ->
    nth_error operations i = Some op ->
    type op <> equal ->
    exists rect entry,
      keyed_rect op = Some rect /\
      changes' = JsMap.set (key_of rect) entry changes /\
      Change.pageIndex entry = Some pageIndex.

(** The same for the earlier page, where every operation is keyed by the
    first block of the changed document. *)
Definition legacy_writes_at (key_of : RectArray -> string) : Prop :=
  forall pageIndex op st st',
    Legacy.processOperation pageIndex op st = (st', Ok tt) ->
    type op <> equal ->
    exists block blocks entry,
      changedTextBlocks op = block :: blocks /\
      Legacy.changes st' = JsMap.set (key_of (rect block)) entry (Legacy.changes st) /\
      Change.pageIndex entry = Some pageIndex.




(* ================================================================== *)
(** * Sample inputs *)
(* ================================================================== *)

Definition px (z : Z) : num := JsNum.of_Z z.

Definition block (x y w h : num) : TextBlock := mkTextBlock (mkRectArray x y w h).

(** A view on page 0 at zoom 1, scrolled to the top, over two pages of
    height 800, whose engine answers [create] by [script]. *)
Definition fresh_instance (script : list (option (list string))) : Instance :=
  mkInstance (mkViewState 0 (ZoomNumber (px 1))) (Some (mkScroll (px 0) (px 0)))
    [Some (mkPageInfo (px 800)); Some (mkPageInfo (px 800))] [] script [].

Definition sample_viewers : Viewers :=
  mkViewers (fresh_instance [Some ["d1"%string]; Some ["d2"%string]])
            (fresh_instance [Some ["i1"%string]; Some ["i2"%string]]).

(** The scenario of the specification: page 0 yields a delete followed by
    an insert. *)
Definition old_text : Operation :=
  mkOperation delete "old text" [block (px 10) (px 20) (px 50) (px 12)] [].
Definition new_words : Operation :=
  mkOperation insert "new words" [] [block (px 10) (px 20) (px 60) (px 12)].
Definition replacement_operations : list Operation := [old_text; new_words].

(** An operation whose block does not start at whole coordinates. *)
Definition fractional_delete : Operation :=
  mkOperation delete "moved" [block (JsNum.Dec 105 1) (JsNum.Dec 2025 2) (px 50) (px 12)] [].

(** Two deletes in the same text block, an unchanged word between them
    dropped by the filter. *)
Definition first_delete : Operation :=
  mkOperation delete "first" [block (px 10) (px 20) (px 50) (px 12)] [].
Definition second_delete : Operation :=
  mkOperation delete "second" [block (px 10) (px 20) (px 50) (px 12)] [].
Definition unchanged : Operation :=
  mkOperation equal "same" [block (px 10) (px 20) (px 50) (px 12)]
    [block (px 10) (px 20) (px 50) (px 12)].

(** What the first of the two deletes leaves in the page's map. *)
Definition after_first_delete : Map ChangeOperation :=
  [("10,20"%string,
    Change.mk (Some "first"%string) None (Some true) None (Some 0)
      (Some (Geometry.mkRect (px 10) (px 20) (px 50) (px 12))) None
      (Some ["d1"%string]))].

(** What the second delete gives when it is alone on page 1. *)
Definition second_delete_on_page_1 : ChangeOperation :=
  Change.mk (Some "second"%string) None (Some true) None (Some 1)
    (Some (Geometry.mkRect (px 10) (px 20) (px 50) (px 12))) None
    (Some ["d2"%string]).

(** The views after the first of the two deletes. *)
Definition viewers_after_first_delete : Viewers :=
  fst (walk_step 0 [first_delete; second_delete] 0%nat [] sample_viewers).

(** An insert, then a replacement, in the same text block. *)
Definition early_insert : Operation :=
  mkOperation insert "early" [] [block (px 10) (px 20) (px 30) (px 12)].


(** The same delete on two pages: two pages, one hunk each. *)
Definition one_hunk (ops : list Operation) : PageComparison :=
  ResultWith [mkDocumentComparisonResult [mkComparisonResult [mkHunk ops]]].

Definition two_pages_same_origin : NutrientViewer :=
  mkNutrientViewer
    (fresh_instance [Some ["d1"%string]; Some ["d2"%string]])
    (fresh_instance [Some ["i1"%string]; Some ["i2"%string]])
    [one_hunk [first_delete]; one_hunk [second_delete]].

(** A run whose first page has no result collection. *)
Definition first_page_malformed : NutrientViewer :=
  mkNutrientViewer
    (fresh_instance [Some ["d1"%string]; Some ["d2"%string]])
    (fresh_instance [Some ["i1"%string]; Some ["i2"%string]])
    [ResultWithoutCollection; one_hunk replacement_operations].

(** The component once the views of a run are loaded. *)
Definition loaded_world (sdk : NutrientViewer) : World :=
  set_instances (Some (mkViewers (loadOriginal sdk) (loadChanged sdk))) initial_world.

(** A view on [page] at [zoom], scrolled to [top], whose engine answers
    [setViewState] by [script]. *)
Definition view (page : Z) (zoom : num) (top : Z) (script : list bool) : Instance :=
  mkInstance (mkViewState page (ZoomNumber zoom)) (Some (mkScroll (px top) (px 0)))
    [Some (mkPageInfo (px 800)); Some (mkPageInfo (px 800))] [] [] script.


(** The same, with an engine that refuses the next view state of the
    changed view. *)
Definition refusing_world : World :=
  set_instances
    (Some (mkViewers (view 0 (px 1) 120 []) (view 0 (JsNum.Dec 15 1) 0 [true])))
    initial_world.

(** A run with one change on each of two pages, and the component after
    it. *)
Definition two_changes_run : NutrientViewer :=
  mkNutrientViewer
    (fresh_instance [Some ["d1"%string]; Some ["d2"%string]; Some ["border"%string]])
    (fresh_instance [Some ["i1"%string]])
    [one_hunk [first_delete]; one_hunk [fractional_delete]].

Definition compared_world : World :=
  fst (compareDocuments (Some two_changes_run) initial_world).

(** A delete whose block sits at (10, 20) in the original document and at
    (30, 40) in the changed one. *)
Definition shifted_delete : Operation :=
  mkOperation delete "gone" [block (px 10) (px 20) (px 50) (px 12)]
    [block (px 30) (px 40) (px 50) (px 12)].

(** The change the scenario of the specification leaves. *)
Definition replaced_change : ChangeOperation :=
  Change.mk (Some "old text"%string) (Some "new words"%string)
    (Some true) (Some true) (Some 0)
    (Some (Geometry.mkRect (px 10) (px 20) (px 50) (px 12)))
    (Some (Geometry.mkRect (px 10) (px 20) (px 60) (px 12)))
    (Some ["d1"%string; "i1"%string]).

(** The original view on page 0 at zoom 1, scrolled to 120; the changed
    view on page 1 at zoom 1.5, scrolled to 900. *)
Definition moved_world : World :=
  set_instances
    (Some (mkViewers (view 0 (px 1) 120 []) (view 1 (JsNum.Dec 15 1) 900 [])))
    initial_world.

(* ================================================================== *)
(** * The sidebar *)
(* ================================================================== *)

(** What [plusMinusDisplayText] renders: both counts, the insert count
    alone, or the delete count alone. *)
Inductive Badge : Type :=
| BadgeBoth (deleteCount insertCount : Z)
| BadgeInsert (insertCount : Z)
| BadgeDelete (deleteCount : Z).

Definition text_truthy (t : option string) : bool :=
  match t with
  | Some s => JsString.truthy s
  | None => false
  end.

(** [plusMinusDisplayText] *)
Definition plusMinusDisplayText (operation : ChangeOperation) : Badge :=
  let deleteCount :=
    if text_truthy (Change.deleteText operation)
    then countWords (Change.deleteText operation) else 0 in
  let insertCount :=
    if text_truthy (Change.insertText operation)
    then countWords (Change.insertText operation) else 0 in
  if is_true (Change.insert operation) && is_true (Change.del operation)
  then BadgeBoth deleteCount insertCount
  else if is_true (Change.insert operation) then BadgeInsert insertCount
  else BadgeDelete deleteCount.

(** The word above the texts of a row: [value.insert && value.del ?
    "replaced" : value.insert ? "inserted" : "deleted"]. *)
Definition change_label (value : ChangeOperation) : string :=
  if is_true (Change.insert value) && is_true (Change.del value) then "replaced"
  else if is_true (Change.insert value) then "inserted"
  else "deleted".

(** A [Map] with number keys, for [changesByPage]. *)
Module NumMap.
Section WithValues.
Context {V : Type}.

Fixpoint get (k : Z) (m : list (Z * V)) : option V :=
  match m with
  | [] => None
  | (k', v) :: rest => if k' =? k then Some v else get k rest
  end.

Definition has (k : Z) (m : list (Z * V)) : bool :=
  match get k m with
  | Some _ => true
  | None => false
  end.

Fixpoint set (k : Z) (v : V) (m : list (Z * V)) : list (Z * V) :=
  match m with
  | [] => [(k, v)]
  | (k', v') :: rest =>
      if k' =? k then (k, v) :: rest else (k', v') :: set k v rest
  end.

Definition keys (m : list (Z * V)) : list Z := map fst m.
End WithValues.
End NumMap.

(** A row of the sidebar: the key, the change and its position in the
    index. *)
Definition SidebarItem : Type := (string * ChangeOperation * Z)%type.

(** [Array.from(operationsMap)] with the index [forEach] passes. *)
Definition indexed_entries (m : Map ChangeOperation) : list SidebarItem :=
  combine m (map Z.of_nat (seq 0 (List.length m))).

(** [value.pageIndex ?? 0] *)
Definition item_page (item : SidebarItem) : Z :=
  match Change.pageIndex (snd (fst item)) with
  | Some p => p
  | None => 0
  end.

(** The body of the [forEach] that groups the changes by page; [push]
    writes the array the map holds. *)
Definition group_step (changesByPage : list (Z * list SidebarItem)) (item : SidebarItem) :
    list (Z * list SidebarItem) :=
  let pageIndex := item_page item in
  let changesByPage :=
    if NumMap.has pageIndex changesByPage then changesByPage
    else NumMap.set pageIndex [] changesByPage in
  match NumMap.get pageIndex changesByPage with
  | Some pageChanges => NumMap.set pageIndex (pageChanges ++ [item]) changesByPage
  | None => changesByPage
  end.

Definition changesByPage (m : Map ChangeOperation) : list (Z * list SidebarItem) :=
  fold_left group_step (indexed_entries m) [].

(** [keys.sort((a, b) => a - b)] on keys that are distinct: the keys in
    ascending order, here by insertion. *)
Fixpoint insert_page (p : Z) (sorted : list Z) : list Z :=
  match sorted with
  | [] => [p]
  | q :: rest => if p <=? q then p :: sorted else q :: insert_page p rest
  end.

Definition sort_pages (pages : list Z) : list Z := fold_right insert_page [] pages.

(** The groups the sidebar renders, in the order it renders them. *)
Definition sidebar_groups (m : Map ChangeOperation) : list (Z * list SidebarItem) :=
  flat_map
    (fun pageIndex =>
       match NumMap.get pageIndex (changesByPage m) with
       | Some pageChanges => [(pageIndex, pageChanges)]
       | None => []
       end)
    (sort_pages (NumMap.keys (changesByPage m))).

(* ================================================================== *)
(** * Properties of the page, as statements *)
(* ================================================================== *)

(** A computation leaves a part of the state as it found it, whatever it
    returns or throws. *)
Definition keeps {X A : Type} (f : World -> X) (m : M World A) : Prop :=
  forall w, f (fst (m w)) = f w.

(** The change index, the selection, the lookup of the annotation
    identifiers and the lock. *)
Definition index_of (w : World) :
    Map ChangeOperation * Z * Map ChangeOperation * Map Z * bool * bool :=
  (operationsMap w, selectedChangeIndex w, operationsRef w,
   annotationToChangeIndexRef w, isScrollLocked w, isScrollLockedRef w).

(** The view of a side, when the views are loaded. *)
Definition view_of (s : Side) (w : World) : option Instance :=
  option_map (instance_of s) (instances w).

(** The flag, the text and the rectangle of one side of a change are
    recorded together or not at all. *)
Definition side_recorded {A B : Type} (flag : option bool) (text : option A)
    (rect : option B) : Prop :=
  (flag = Some true /\ text <> None /\ rect <> None) \/
  (flag = None /\ text = None /\ rect = None).

(** A change as the aggregator writes it for page [pageIndex]. *)
Definition entry_of_page (pageIndex : Z) (e : ChangeOperation) : Prop :=
  Change.pageIndex e = Some pageIndex /\
  side_recorded (Change.del e) (Change.deleteText e) (Change.originalRect e) /\
  side_recorded (Change.insert e) (Change.insertText e) (Change.changedRect e) /\
  (Change.del e = Some true \/ Change.insert e = Some true) /\
  exists ids,
    Change.annotationIds e = Some ids /\ Forall (fun id => id <> EmptyString) ids.

(** The map of a page: distinct keys, every entry a change of the page. *)
Definition page_map (pageIndex : Z) (changes : Map ChangeOperation) : Prop :=
  NoDup (JsMap.keys changes) /\
  forall key e, JsMap.get key changes = Some e -> entry_of_page pageIndex e.

(** The views [v'] hold what the views [v] held, the annotations whose
    identifier is in [ids] aside: the view states and the scroll elements
    are the same, and every other annotation is still there. *)
Definition views_keep (ids : list string) (v v' : Viewers) : Prop :=
  forall side,
    viewState (instance_of side v') = viewState (instance_of side v) /\
    scrollElement (instance_of side v') = scrollElement (instance_of side v) /\
    forall a, In a (annotations (instance_of side v)) -> ~ In (fst a) ids ->
              In a (annotations (instance_of side v')).

(** A computation that, on loaded views, leaves views that hold what the
    views held, the annotations in [ids] aside. *)
Definition keeps_views (ids : list string) {A : Type} (m : M World A) : Prop :=
  forall w v,
    instances w = Some v ->
    exists v', instances (fst (m w)) = Some v' /\ views_keep ids v v'.


(** A computation leaves a state with a property it found. *)
Definition preserves {A : Type} (P : World -> Prop) (m : M World A) : Prop :=
  forall w, P w -> P (fst (m w)).

(* ================================================================== *)
(** * Facts about maps *)
(* ================================================================== *)

Section MapFacts.
Context {V : Type}.
Implicit Types (m : list (string * V)) (k : string) (v : V).

Lemma map_get_set_same k v m : JsMap.get k (JsMap.set k v m) = Some v.
Proof.
  induction m as [|[k' v'] m IH]; simpl.
  - now rewrite String.eqb_refl.
  - destruct (String.eqb k' k) eqn:E; simpl.
    + now rewrite String.eqb_refl.
    + now rewrite E.
Qed.

Lemma map_get_set_other k k' v m :
  k <> k' -> JsMap.get k' (JsMap.set k v m) = JsMap.get k' m.
Proof.
  intros Hne. induction m as [|[k0 v0] m IH]; simpl.
  - destruct (String.eqb_spec k k'); [contradiction | reflexivity].
  - destruct (String.eqb_spec k0 k) as [->|Hk]; simpl.
    + destruct (String.eqb_spec k k'); [contradiction | reflexivity].
    + destruct (String.eqb_spec k0 k'); [reflexivity | exact IH].
Qed.

Lemma map_get_none_iff k m : JsMap.get k m = None <-> ~ In k (JsMap.keys m).
Proof.
  induction m as [|[k' v'] m IH]; simpl.
  - tauto.
  - destruct (String.eqb_spec k' k) as [->|Hk].
    + split; [discriminate | intros H; exfalso; apply H; now left].
    + rewrite IH. split; [intros H [E|E]; [contradiction | auto] | tauto].
Qed.

Lemma map_set_fresh k v m :
  ~ In k (JsMap.keys m) -> JsMap.set k v m = m ++ [(k, v)].
Proof.
  induction m as [|[k' v'] m IH]; simpl; intros H.
  - reflexivity.
  - destruct (String.eqb_spec k' k) as [->|Hk].
    + exfalso. apply H. now left.
    + f_equal. apply IH. tauto.
Qed.

Lemma map_keys_set_present k v m :
  In k (JsMap.keys m) -> JsMap.keys (JsMap.set k v m) = JsMap.keys m.
Proof.
  induction m as [|[k' v'] m IH]; simpl; intros H.
  - contradiction.
  - destruct (String.eqb_spec k' k) as [->|Hk]; simpl.
    + reflexivity.
    + f_equal. apply IH. destruct H; [contradiction | assumption].
Qed.

Lemma map_keys_set k v m :
  JsMap.keys (JsMap.set k v m) =
  if JsMap.has k m then JsMap.keys m else JsMap.keys m ++ [k].
Proof.
  unfold JsMap.has. destruct (JsMap.get k m) eqn:E.
  - apply map_keys_set_present.
    destruct (in_dec string_dec k (JsMap.keys m)) as [H|H]; [exact H|].
    apply map_get_none_iff in H. congruence.
  - apply map_get_none_iff in E. rewrite (map_set_fresh _ _ _ E).
    unfold JsMap.keys. now rewrite map_app.
Qed.

Lemma map_set_NoDup k v m :
  NoDup (JsMap.keys m) -> NoDup (JsMap.keys (JsMap.set k v m)).
Proof.
  intros H. rewrite map_keys_set. unfold JsMap.has.
  destruct (JsMap.get k m) eqn:E; [exact H|].
  apply map_get_none_iff in E.
  apply NoDup_app; repeat split; auto.
  - constructor; [intros [] | constructor].
  - intros x Hx [<-|[]]. contradiction.
Qed.

Lemma map_set_length k v m :
  List.length (JsMap.set k v m) =
  if JsMap.has k m then List.length m else S (List.length m).
Proof.
  pose proof (map_keys_set k v m) as H.
  apply (f_equal (@List.length string)) in H.
  unfold JsMap.keys in H. rewrite length_map in H. rewrite H.
  destruct (JsMap.has k m); [now rewrite length_map|].
  rewrite length_app, length_map. simpl. lia.
Qed.

Lemma fold_entries_NoDup (l acc : list (string * V)) :
  NoDup (JsMap.keys acc) -> NoDup (JsMap.keys (fold_left JsMap.put_entry l acc)).
Proof.
  revert acc. induction l as [|[k v] l IH]; simpl; intros acc H; [exact H|].
  apply IH. now apply map_set_NoDup.
Qed.

Lemma fold_entries_absent k (l acc : list (string * V)) :
  ~ In k (JsMap.keys l) ->
  JsMap.get k (fold_left JsMap.put_entry l acc) = JsMap.get k acc.
Proof.
  revert acc. induction l as [|[k' v'] l IH]; simpl; intros acc H; [reflexivity|].
  rewrite IH by tauto. unfold JsMap.put_entry; simpl.
  apply map_get_set_other. intros ->. apply H. now left.
Qed.

Lemma fold_entries_last k v (l acc : list (string * V)) :
  NoDup (JsMap.keys l) -> JsMap.get k l = Some v ->
  JsMap.get k (fold_left JsMap.put_entry l acc) = Some v.
Proof.
  revert acc. induction l as [|[k' v'] l IH]; simpl; intros acc Hnd Hget; [discriminate|].
  inversion Hnd as [|? ? Hnotin Hnd']; subst.
  destruct (String.eqb_spec k' k) as [->|Hk].
  - injection Hget as ->. rewrite fold_entries_absent by exact Hnotin.
    apply map_get_set_same.
  - now apply IH.
Qed.

Lemma fold_entries_app_fresh (l acc : list (string * V)) :
  NoDup (JsMap.keys (acc ++ l)) -> fold_left JsMap.put_entry l acc = acc ++ l.
Proof.
  revert acc. induction l as [|[k v] l IH]; simpl; intros acc H.
  - now rewrite app_nil_r.
  - assert (Hk : ~ In k (JsMap.keys acc)).
    { unfold JsMap.keys in *. rewrite map_app in H. simpl in H.
      apply NoDup_remove_2 in H. intros Hin. apply H. apply in_or_app. now left. }
    unfold JsMap.put_entry at 2; simpl. rewrite (map_set_fresh _ _ _ Hk).
    rewrite IH; rewrite <- app_assoc; [reflexivity | exact H].
Qed.

(** Copying a map gives the same map. *)
Lemma of_entries_id (m : list (string * V)) :
  NoDup (JsMap.keys m) -> JsMap.of_entries m = m.
Proof.
  intros H. unfold JsMap.of_entries.
  now rewrite fold_entries_app_fresh.
Qed.

Lemma of_entries_NoDup (l : list (string * V)) :
  NoDup (JsMap.keys (JsMap.of_entries l)).
Proof.
  unfold JsMap.of_entries.
  apply fold_entries_NoDup. constructor.
Qed.

End MapFacts.

(* ================================================================== *)
(** * Facts about word counts *)
(* ================================================================== *)

Lemma runs_after_leading_space b s :
  JsString.starts_with_space s = true -> runs_after b s = runs_after true s.
Proof.
  destruct s as [|c r]; simpl; [discriminate|].
  intros ->. reflexivity.
Qed.

Lemma runs_after_leading_word s :
  s <> EmptyString -> JsString.starts_with_space s = false ->
  runs_after true s = S (runs_after false s).
Proof.
  destruct s as [|c r]; simpl; [congruence|].
  intros _ ->. reflexivity.
Qed.

(** The number of pieces [split] gives: one more than the runs of
    whitespace, which is the words that follow a run, plus the piece
    before the first run, plus the empty piece after a trailing run. *)
Lemma split_ws_length s :
  List.length (JsString.split_ws s) =
  (runs_after false s + 1 + (if JsString.ends_with_space s then 1 else 0))%nat.
Proof.
  induction s as [|c r IH]; [reflexivity|].
  cbn [JsString.split_ws runs_after JsString.ends_with_space].
  destruct (JsString.is_space c) eqn:Ec.
  - destruct r as [|d r'].
    + reflexivity.
    + cbn [JsString.starts_with_space].
      destruct (JsString.is_space d) eqn:Ed.
      * rewrite IH. cbn [runs_after]. rewrite Ed. reflexivity.
      * cbn [List.length]. rewrite IH. cbn [runs_after]. rewrite Ed. lia.
  - destruct (JsString.split_ws r) as [|p ps] eqn:Es.
    + simpl in IH. lia.
    + cbn [List.length] in *. rewrite IH. destruct r; [|reflexivity].
      simpl. lia.
Qed.

Lemma trimStart_runs s : runs_after true (JsString.trimStart s) = runs_after true s.
Proof.
  induction s as [|c r IH]; simpl; [reflexivity|].
  destruct (JsString.is_space c) eqn:Ec; [exact IH|]. simpl. now rewrite Ec.
Qed.

Lemma trimStart_no_leading_space s :
  JsString.starts_with_space (JsString.trimStart s) = false.
Proof.
  induction s as [|c r IH]; simpl; [reflexivity|].
  destruct (JsString.is_space c) eqn:Ec; [exact IH|]. simpl. exact Ec.
Qed.

Lemma trimEnd_runs b s : runs_after b (JsString.trimEnd s) = runs_after b s.
Proof.
  revert b. induction s as [|c r IH]; intros b; simpl; [reflexivity|].
  destruct (JsString.trimEnd r) as [|d r'] eqn:Et.
  - destruct (JsString.is_space c) eqn:Ec; simpl.
    + now rewrite <- IH.
    + rewrite Ec. now rewrite <- IH.
  - simpl. destruct (JsString.is_space c); now rewrite <- IH.
Qed.

Lemma trimEnd_no_trailing_space s :
  JsString.ends_with_space (JsString.trimEnd s) = false.
Proof.
  induction s as [|c r IH]; simpl; [reflexivity|].
  destruct (JsString.trimEnd r) as [|d r'] eqn:Et.
  - destruct (JsString.is_space c) eqn:Ec; simpl; [reflexivity | exact Ec].
  - exact IH.
Qed.

Lemma trimEnd_no_leading_space s :
  JsString.starts_with_space s = false ->
  JsString.starts_with_space (JsString.trimEnd s) = false.
Proof.
  destruct s as [|c r]; simpl; [reflexivity|].
  intros Ec. destruct (JsString.trimEnd r); rewrite ?Ec; simpl; auto.
Qed.

Lemma trim_runs s : word_runs (JsString.trim s) = word_runs s.
Proof.
  unfold word_runs, JsString.trim. now rewrite trimEnd_runs, trimStart_runs.
Qed.

Lemma trim_all_space s : JsString.all_space s = true -> JsString.trim s = EmptyString.
Proof.
  unfold JsString.trim. induction s as [|c r IH]; simpl; [reflexivity|].
  intros H. apply andb_prop in H as [-> Hr]. now apply IH.
Qed.

Lemma all_space_runs s : JsString.all_space s = true <-> word_runs s = O.
Proof.
  unfold word_runs. induction s as [|c r IH]; simpl; [tauto|].
  destruct (JsString.is_space c); simpl; [exact IH|].
  split; [discriminate | lia].
Qed.

(** [countWords] of an absent text. *)
Lemma countWords_undefined : countWords None = 0.
Proof. reflexivity. Qed.

(** [countWords] of the empty string. *)
Lemma countWords_empty : countWords (Some EmptyString) = 0.
Proof. reflexivity. Qed.

(** [countWords] of the example of the specification. *)
Lemma countWords_hello_world : countWords (Some "  hello   world  "%string) = 2.
Proof. reflexivity. Qed.

(** On a text that holds a word, [countWords] is the number of the maximal
    runs of characters that are not whitespace. *)
Lemma countWords_runs s :
  word_runs s <> O -> countWords (Some s) = Z.of_nat (word_runs s).
Proof.
  intros Hw. unfold countWords.
  destruct s as [|c r] eqn:Es; [now simpl in Hw|]. cbn [JsString.truthy].
  rewrite <- Es in *. clear Es c r.
  rewrite split_ws_length. f_equal.
  assert (Ht : JsString.trim s <> EmptyString).
  { intros E. apply Hw. rewrite <- trim_runs, E. reflexivity. }
  rewrite <- (trim_runs s). unfold word_runs.
  rewrite (runs_after_leading_word (JsString.trim s) Ht).
  - unfold JsString.trim at 2. rewrite trimEnd_no_trailing_space. lia.
  - apply trimEnd_no_leading_space, trimStart_no_leading_space.
Qed.

(** On a text that is not empty and holds whitespace only, [countWords]
    is 1: the test for an empty text comes before the trim. *)
Lemma countWords_blank s :
  s <> EmptyString -> JsString.all_space s = true -> countWords (Some s) = 1.
Proof.
  intros Hs Ha. unfold countWords.
  destruct s; [congruence|]. cbn [JsString.truthy].
  now rewrite (trim_all_space _ Ha).
Qed.

(** C8, at the input where the code leaves the claim: a text of three
    spaces has no word (its trimmed form is empty, and it has no run of
    characters that are not whitespace), and [countWords] gives 1 for it;
    on the two examples of the claim it gives 2 and 0. *)
Theorem countWords_whitespace_only :
  JsString.trim "   " = EmptyString /\
  word_runs "   " = O /\
  countWords (Some "   "%string) = 1 /\
  countWords (Some "  hello   world  "%string) = 2 /\
  countWords None = 0.
Proof. repeat split. Qed.

(* ================================================================== *)
(** * Facts about the aggregator *)
(* ================================================================== *)

Lemma create_script_some annotation i ids script :
  createScript i = Some ids :: script ->
  create annotation i =
    (with_annotations i (annotations i ++ map (fun id => (id, annotation)) ids) script,
     Ok ids).
Proof. unfold create. now intros ->. Qed.

Lemma id_entries_truthy id : id <> EmptyString -> id_entries (Some id) = [id].
Proof. destruct id; simpl; congruence. Qed.

Lemma replacement_partner_spec operations i currentOp :
  replacement_partner operations i currentOp =
  match type currentOp, nth_error operations (i + 1) with
  | delete, Some insertOp => if is_insert insertOp then Some insertOp else None
  | _, _ => None
  end.
Proof.
  unfold replacement_partner, is_delete.
  destruct (type currentOp); simpl; try reflexivity.
  destruct (nth_error operations (i + 1)) eqn:E.
  - assert (H : (i + 1 < List.length operations)%nat)
      by (apply nth_error_Some; congruence).
    apply Nat.ltb_lt in H. now rewrite H.
  - now destruct (i + 1 <? List.length operations)%nat.
Qed.

(** C1.  At a cursor that holds a delete followed by an insert, with the
    blocks the two operations are read at and an engine that creates an
    annotation with a non-empty identifier in each view, one turn of the
    loop makes one write: an entry at the coordinate of the delete's
    original rectangle, with both texts, both flags true, both rectangles
    and both identifiers, every other key left as it was (so the map grows
    by at most one entry), one highlight created per view, and the cursor
    moved by 2.  On the scenario of the specification the page's map is
    the single entry at "10,20". *)
Theorem replacement_is_one_change :
  (forall pageIndex operations i changes v deleteOp insertOp
          dblock dblocks iblock iblocks did dids dscript iid iids iscript,
      nth_error operations i = Some deleteOp -> type deleteOp = delete ->
      nth_error operations (i + 1) = Some insertOp -> type insertOp = insert ->
      originalTextBlocks deleteOp = dblock :: dblocks ->
      changedTextBlocks insertOp = iblock :: iblocks ->
      createScript (originalInstance v) = Some (did :: dids) :: dscript ->
      createScript (changedInstance v) = Some (iid :: iids) :: iscript ->
      did <> EmptyString -> iid <> EmptyString ->
      let key := coordinate_of (rect dblock) in
      let entry :=
        Change.mk (Some (text deleteOp)) (Some (text insertOp)) (Some true) (Some true)
          (Some pageIndex) (Some (rect_of (rect dblock))) (Some (rect_of (rect iblock)))
          (Some [did; iid]) in
      exists v',
        walk_step pageIndex operations i changes v =
          (v', Ok ((i + 2)%nat, JsMap.set key entry changes)) /\
        JsMap.get key (JsMap.set key entry changes) = Some entry /\
        (forall k, k <> key ->
           JsMap.get k (JsMap.set key entry changes) = JsMap.get k changes) /\
        List.length (JsMap.set key entry changes) =
          (if JsMap.has key changes then List.length changes
           else S (List.length changes)) /\
        annotations (originalInstance v') =
          annotations (originalInstance v) ++
          map (fun id => (id, highlight pageIndex (rect_of (rect dblock)) deleteHighlightColor))
              (did :: dids) /\
        annotations (changedInstance v') =
          annotations (changedInstance v) ++
          map (fun id => (id, highlight pageIndex (rect_of (rect iblock)) insertHighlightColor))
              (iid :: iids)) /\
  (exists v',
      process_hunk 0 (mkHunk replacement_operations) [] sample_viewers =
        (v', Ok [("10,20"%string,
                  Change.mk (Some "old text"%string) (Some "new words"%string)
                    (Some true) (Some true) (Some 0)
                    (Some (Geometry.mkRect (px 10) (px 20) (px 50) (px 12)))
                    (Some (Geometry.mkRect (px 10) (px 20) (px 60) (px 12)))
                    (Some ["d1"%string; "i1"%string]))])).
Proof.
  split.
  - intros pageIndex operations i changes v deleteOp insertOp
           dblock dblocks iblock iblocks did dids dscript iid iids iscript
           Hi Hdel Hi1 Hins Hdb Hib Hds His Hdid Hiid key entry.
    unfold walk_step. rewrite Hi, replacement_partner_spec, Hdel, Hi1.
    unfold is_insert. rewrite Hins.
    unfold processReplacement, bind. rewrite Hdb, Hib. cbn [first_rect ret].
    unfold on_original, on_changed, focus.
    rewrite (create_script_some _ _ _ _ Hds). cbn [originalInstance changedInstance].
    rewrite (create_script_some _ _ _ _ His). cbn [first_id].
    unfold replacement_entry. rewrite !id_entries_truthy by assumption.
    eexists. split; [reflexivity|].
    split; [apply map_get_set_same|].
    split; [intros k Hk; now apply map_get_set_other|].
    split; [apply map_set_length|].
    split; reflexivity.
  - eexists. vm_compute. reflexivity.
Qed.

(** The replacement turn of C1 on the scenario of the specification. *)
Lemma replacement_is_one_change_witness :
  exists v',
    walk_step 0 replacement_operations 0 [] sample_viewers =
      (v', Ok (2%nat,
               [("10,20"%string,
                 Change.mk (Some "old text"%string) (Some "new words"%string)
                   (Some true) (Some true) (Some 0)
                   (Some (Geometry.mkRect (px 10) (px 20) (px 50) (px 12)))
                   (Some (Geometry.mkRect (px 10) (px 20) (px 60) (px 12)))
                   (Some ["d1"%string; "i1"%string]))])).
Proof.
  destruct (proj1 replacement_is_one_change 0 replacement_operations 0%nat [] sample_viewers
              old_text new_words
              (block (px 10) (px 20) (px 50) (px 12)) []
              (block (px 10) (px 20) (px 60) (px 12)) []
              "d1"%string [] [Some ["d2"%string]] "i1"%string [] [Some ["i2"%string]]
              eq_refl eq_refl eq_refl eq_refl eq_refl eq_refl eq_refl eq_refl
              ltac:(discriminate) ltac:(discriminate)) as [v' [H _]].
  exists v'. exact H.
Defined.

(** What [processOperation] did when it returned. *)
Lemma processOperation_ok pageIndex op changes v v' changes' :
  processOperation pageIndex op changes v = (v', Ok changes') ->
  match type op with
  | equal => v' = v /\ changes' = changes
  | delete =>
      exists rect created,
        keyed_rect op = Some rect /\
        on_original (create (highlight pageIndex (rect_of rect) deleteHighlightColor)) v
          = (v', Ok created) /\
        changes' =
          JsMap.set (coordinate_of rect)
            (delete_entry pageIndex op (rect_of rect) (first_id created)
               (JsMap.get (coordinate_of rect) changes))
            changes
  | insert =>
      exists rect created,
        keyed_rect op = Some rect /\
        on_changed (create (highlight pageIndex (rect_of rect) insertHighlightColor)) v
          = (v', Ok created) /\
        changes' =
          JsMap.set (coordinate_of rect)
            (insert_entry pageIndex op (rect_of rect) (first_id created)
               (JsMap.get (coordinate_of rect) changes))
            changes
  end.
Proof.
  unfold processOperation, keyed_rect. destruct (type op).
  - unfold ret. intros H. now inversion H.
  - destruct (originalTextBlocks op) as [|blk blks]; cbn [first_rect];
      unfold bind, throw, ret; [discriminate|].
    destruct (on_original _ v) as [v1 [created|e]] eqn:Ec; [|discriminate].
    intros H. inversion H; subst. exists (rect blk), created. auto.
  - destruct (changedTextBlocks op) as [|blk blks]; cbn [first_rect];
      unfold bind, throw, ret; [discriminate|].
    destruct (on_changed _ v) as [v1 [created|e]] eqn:Ec; [|discriminate].
    intros H. inversion H; subst. exists (rect blk), created. auto.
Qed.

(** What the replacement branch did when it returned. *)
Lemma processReplacement_ok pageIndex deleteOp insertOp changes v v' changes' :
  processReplacement pageIndex deleteOp insertOp changes v = (v', Ok changes') ->
  exists dblock dblocks iblock iblocks deleteId insertId,
    originalTextBlocks deleteOp = dblock :: dblocks /\
    changedTextBlocks insertOp = iblock :: iblocks /\
    changes' =
      JsMap.set (coordinate_of (rect dblock))
        (replacement_entry pageIndex deleteOp insertOp
           (rect_of (rect dblock)) (rect_of (rect iblock)) deleteId insertId)
        changes.
Proof.
  unfold processReplacement.
  destruct (originalTextBlocks deleteOp) as [|dblock dblocks]; cbn [first_rect];
    unfold bind at 1, throw, ret; [discriminate|].
  destruct (changedTextBlocks insertOp) as [|iblock iblocks]; cbn [first_rect];
    unfold bind at 1, throw, ret; [discriminate|].
  unfold bind.
  destruct (on_original _ v) as [v1 [createdDelete|e]]; [|discriminate].
  destruct (on_changed _ v1) as [v2 [createdInsert|e]]; [|discriminate].
  intros H. inversion H; subst.
  now exists dblock, dblocks, iblock, iblocks, (first_id createdDelete), (first_id createdInsert).
Qed.

(** The two branches of a turn that returned. *)
Lemma walk_step_ok pageIndex operations i changes v v' i' changes' :
  walk_step pageIndex operations i changes v = (v', Ok (i', changes')) ->
  exists currentOp,
    nth_error operations i = Some currentOp /\
    ((exists insertOp,
        type currentOp = delete /\
        nth_error operations (i + 1) = Some insertOp /\ type insertOp = insert /\
        processReplacement pageIndex currentOp insertOp changes v = (v', Ok changes') /\
        i' = (i + 2)%nat) \/
     (replacement_partner operations i currentOp = None /\
      processOperation pageIndex currentOp changes v = (v', Ok changes') /\
      i' = (i + 1)%nat)).
Proof.
  unfold walk_step. destruct (nth_error operations i) as [currentOp|]; [|discriminate].
  intros H. exists currentOp. split; [reflexivity|].
  destruct (replacement_partner operations i currentOp) as [insertOp|] eqn:Ep.
  - left. exists insertOp. rewrite replacement_partner_spec in Ep.
    destruct (type currentOp) eqn:Et; try discriminate.
    destruct (nth_error operations (i + 1)) as [o|] eqn:En; [|discriminate].
    unfold is_insert in Ep. destruct (type o) eqn:Eo; try discriminate.
    injection Ep as ->.
    unfold bind in H.
    destruct (processReplacement _ _ _ _ v) as [v1 [c|e]]; [|discriminate].
    inversion H; subst. auto.
  - right. unfold bind in H.
    destruct (processOperation _ _ _ v) as [v1 [c|e]]; [|discriminate].
    inversion H; subst. auto.
Qed.

Lemma delete_entry_pageIndex p op r a e :
  Change.pageIndex (delete_entry p op r a e) = Some p.
Proof. now destruct e. Qed.

Lemma insert_entry_pageIndex p op r a e :
  Change.pageIndex (insert_entry p op r a e) = Some p.
Proof. now destruct e. Qed.

(** Where a turn of the loop writes. *)
Lemma walk_step_writes_at pageIndex operations i changes v v' i' changes' op :
  walk_step pageIndex operations i changes v = (v', Ok (i', changes')) ->
  nth_error operations i = Some op ->
  type op <> equal ->
  exists rect entry,
    keyed_rect op = Some rect /\
    changes' = JsMap.set (coordinate_of rect) entry changes /\
    Change.pageIndex entry = Some pageIndex.
Proof.
  revert pageIndex operations i changes v v' i' changes' op.
  intros pageIndex operations i changes v v' i' changes' op Hstep Hop Hty.
  apply walk_step_ok in Hstep as (currentOp & Hcur & Hcase).
  rewrite Hop in Hcur. injection Hcur as <-.
  destruct Hcase as [(insertOp & Hdel & _ & _ & Hrep & _) | (_ & Hproc & _)].
  - apply processReplacement_ok in Hrep
      as (dblock & dblocks & iblock & iblocks & deleteId & insertId & Hd & _ & ->).
    exists (rect dblock). eexists. unfold keyed_rect. rewrite Hdel, Hd.
    repeat split.
  - apply processOperation_ok in Hproc. destruct (type op); [congruence| |].
    + destruct Hproc as (rect & created & Hk & _ & ->).
      exists rect. eexists. repeat split; [exact Hk|apply delete_entry_pageIndex].
    + destruct Hproc as (rect & created & Hk & _ & ->).
      exists rect. eexists. repeat split; [exact Hk|apply insert_entry_pageIndex].
Qed.

(** Where the earlier page writes. *)
Lemma legacy_processOperation_writes_at : legacy_writes_at coordinate_of.
Proof.
  intros pageIndex op st st' Hrun Hty. unfold Legacy.processOperation in Hrun.
  destruct (changedTextBlocks op) as [|block blocks]; cbn [first_rect] in Hrun;
    unfold bind, throw, ret in Hrun; [discriminate|].
  exists block, blocks. destruct (type op); [congruence | |].
  - destruct (originalTextBlocks op) as [|oblock oblocks]; cbn [first_rect] in Hrun;
      unfold throw, ret, modify in Hrun; [discriminate|].
    inversion Hrun; subst. eexists. repeat split.
  - unfold modify in Hrun. inversion Hrun; subst. eexists. repeat split.
Qed.

(** C5, as amended.  A turn of the loop that processes a delete or an
    insert writes the page's map at the key made of the first two numbers
    of a rectangle, printed as they are and joined by a comma; the
    rectangle is the first block of the original document when the
    operation at the cursor is a delete (alone, or paired with the insert
    after it) and the first block of the changed document when it is an
    insert.  The earlier page prints the key the same way, from the first
    block of the changed document for a delete as for an insert. *)
Theorem change_key_is_printed_origin :
  cursor_writes_at coordinate_of /\ legacy_writes_at coordinate_of.
Proof. split; [exact walk_step_writes_at | exact legacy_processOperation_writes_at]. Qed.

(** The turn of C5 on a delete whose block starts at (10.5, 20.25). *)
Lemma change_key_is_printed_origin_witness :
  exists rect entry,
    keyed_rect fractional_delete = Some rect /\
    [("10.5,20.25"%string, entry)] = JsMap.set (coordinate_of rect) entry [] /\
    Change.pageIndex entry = Some 0.
Proof.
  destruct (proj1 change_key_is_printed_origin 0 [fractional_delete] 0%nat [] sample_viewers
              _ _ _ fractional_delete eq_refl eq_refl ltac:(discriminate))
    as (rect & entry & Hk & Hset & Hp).
  exists rect, entry. injection Hk as <-. vm_compute in Hset.
  injection Hset as <-. repeat split.
Defined.

(** C5, as stated, fails: the delete whose block starts at (10.5, 20.25)
    is written at "10.5,20.25", which is not the key of the rounded
    origin, "11,20". *)
Lemma rounded_key_counterexample : ~ cursor_writes_at rounded_coordinate_of.
Proof.
  intros H.
  destruct (H 0 [fractional_delete] 0%nat [] sample_viewers
              _ _ _ fractional_delete eq_refl eq_refl ltac:(discriminate))
    as (rect & entry & Hk & Hset & _).
  injection Hk as <-. vm_compute in Hset. discriminate Hset.
Qed.

(** On whole coordinates rounding changes nothing, so the two keys
    agree (the scenario of the specification is such a case). *)
Lemma rounded_key_on_integers x y w h :
  rounded_coordinate_of (mkRectArray (px x) (px y) w h) =
  coordinate_of (mkRectArray (px x) (px y) w h).
Proof.
  unfold rounded_coordinate_of, coordinate_of, JsNum.round, px, JsNum.of_Z.
  cbn [rect0 rect1 JsNum.mant JsNum.expo].
  assert (E : forall z, (2 * z + JsNum.pow10 0) / (2 * JsNum.pow10 0) = z).
  { intros z. unfold JsNum.pow10. simpl Z.of_nat. change (10 ^ 0) with 1.
    rewrite Z.mul_1_r. rewrite Z.mul_comm, Z.div_add_l by lia.
    change (1 / 2) with 0. lia. }
  now rewrite !E.
Qed.



(** The state the counterexample of C2 starts from is the one the first
    of the two deletes leaves. *)
Lemma first_delete_leaves :
  walk_step 0 [first_delete; second_delete] 0 [] sample_viewers
  = (viewers_after_first_delete, Ok (1%nat, after_first_delete)).
Proof. reflexivity. Qed.


(** The replacement branch does not read the entry that is at the key: an
    insert followed by a replacement in the same block leaves the entry of
    the replacement alone, without the identifier recorded for the
    insert, whose highlight stays in the changed view. *)
Lemma replacement_overwrites_existing :
  exists v',
    process_hunk 0 (mkHunk [early_insert; old_text; new_words]) [] sample_viewers =
      (v', Ok [("10,20"%string,
                Change.mk (Some "old text"%string) (Some "new words"%string)
                  (Some true) (Some true) (Some 0)
                  (Some (Geometry.mkRect (px 10) (px 20) (px 50) (px 12)))
                  (Some (Geometry.mkRect (px 10) (px 20) (px 60) (px 12)))
                  (Some ["d1"%string; "i2"%string]))]) /\
    map fst (annotations (changedInstance v')) = ["i1"%string; "i2"%string].
Proof. eexists. split; reflexivity. Qed.

(* ------------------------------------------------------------------ *)
(** ** The loop ends *)

Lemma create_not_out_of_fuel annotation i :
  snd (create annotation i) <> Throw OutOfFuel.
Proof.
  unfold create. destruct (createScript i) as [|[ids|] script]; simpl; congruence.
Qed.

Lemma processOperation_not_out_of_fuel pageIndex op changes v :
  snd (processOperation pageIndex op changes v) <> Throw OutOfFuel.
Proof.
  unfold processOperation, bind, on_original, on_changed, focus.
  destruct (type op); [simpl; congruence| |].
  - destruct (originalTextBlocks op); cbn [first_rect throw ret]; [simpl; congruence|].
    pose proof (create_not_out_of_fuel
                  (highlight pageIndex (rect_of (rect t)) deleteHighlightColor)
                  (originalInstance v)) as H.
    destruct (create _ (originalInstance v)) as [i' [c|e]]; simpl in *; congruence.
  - destruct (changedTextBlocks op); cbn [first_rect throw ret]; [simpl; congruence|].
    pose proof (create_not_out_of_fuel
                  (highlight pageIndex (rect_of (rect t)) insertHighlightColor)
                  (changedInstance v)) as H.
    destruct (create _ (changedInstance v)) as [i' [c|e]]; simpl in *; congruence.
Qed.

Lemma processReplacement_not_out_of_fuel pageIndex deleteOp insertOp changes v :
  snd (processReplacement pageIndex deleteOp insertOp changes v) <> Throw OutOfFuel.
Proof.
  unfold processReplacement, bind, on_original, on_changed, focus.
  destruct (originalTextBlocks deleteOp) as [|d ds]; cbn [first_rect throw ret];
    [simpl; congruence|].
  destruct (changedTextBlocks insertOp) as [|b bs]; cbn [first_rect throw ret];
    [simpl; congruence|].
  pose proof (create_not_out_of_fuel
                (highlight pageIndex (rect_of (rect d)) deleteHighlightColor)
                (originalInstance v)) as H.
  destruct (create _ (originalInstance v)) as [i' [c|e]]; simpl in *; [|congruence].
  pose proof (create_not_out_of_fuel
                (highlight pageIndex (rect_of (rect b)) insertHighlightColor)
                (changedInstance v)) as H'.
  destruct (create _ (changedInstance v)) as [i'' [c'|e]]; simpl in *; congruence.
Qed.

Lemma walk_step_not_out_of_fuel pageIndex operations i changes v :
  snd (walk_step pageIndex operations i changes v) <> Throw OutOfFuel.
Proof.
  unfold walk_step. destruct (nth_error operations i) as [currentOp|]; [|simpl; congruence].
  destruct (replacement_partner operations i currentOp) as [insertOp|]; unfold bind.
  - pose proof (processReplacement_not_out_of_fuel pageIndex currentOp insertOp changes v).
    destruct (processReplacement _ _ _ _ v) as [v1 [c|e]]; simpl in *; congruence.
  - pose proof (processOperation_not_out_of_fuel pageIndex currentOp changes v).
    destruct (processOperation _ _ _ v) as [v1 [c|e]]; simpl in *; congruence.
Qed.

(** As many turns as there are operations left are enough. *)
Lemma walk_loop_enough_fuel fuel pageIndex operations i changes v :
  (List.length operations - i <= fuel)%nat ->
  snd (walk_loop fuel pageIndex operations i changes v) <> Throw OutOfFuel.
Proof.
  revert i changes v. induction fuel as [|fuel IH]; intros i changes v Hfuel;
    cbn [walk_loop]; destruct (i <? List.length operations)%nat eqn:Ei;
    try (simpl; congruence).
  - apply Nat.ltb_lt in Ei. lia.
  - unfold bind.
    pose proof (walk_step_not_out_of_fuel pageIndex operations i changes v) as Hs.
    destruct (walk_step pageIndex operations i changes v) as [v1 [[i' c']|e]] eqn:Es;
      [|simpl in *; congruence].
    apply walk_step_ok in Es as (op & _ & [(o & _ & _ & _ & _ & ->) | (_ & _ & ->)]);
      apply IH; cbn [fst]; lia.
Qed.

(** A hunk is always walked to its end. *)
Lemma process_hunk_ends pageIndex hunk changes v :
  snd (process_hunk pageIndex hunk changes v) <> Throw OutOfFuel.
Proof. unfold process_hunk. apply walk_loop_enough_fuel. lia. Qed.

(* ------------------------------------------------------------------ *)
(** ** Operations tagged equal *)

Lemma filter_operations_equal l1 e l2 :
  type e = equal -> filter_operations (l1 ++ e :: l2) = filter_operations (l1 ++ l2).
Proof.
  intros He. unfold filter_operations. rewrite !filter_app. cbn [filter].
  unfold is_equal at 2. now rewrite He.
Qed.

Lemma filter_operations_only_equal ops :
  filter_operations (filter is_equal ops) = [].
Proof.
  unfold filter_operations. induction ops as [|op ops IH]; [reflexivity|].
  cbn [filter]. destruct (is_equal op) eqn:E; [|exact IH].
  cbn [filter]. now rewrite E.
Qed.

(** C10.  The loop of a hunk walks over the operations that are not
    tagged equal, so: an equal operation anywhere in the hunk changes
    neither the page's map nor what is created in the views; a hunk of
    equal operations alone leaves the map and the views as they are; none
    of the operations the cursor meets is tagged equal; and
    [processOperation] itself has no case for an equal operation. *)
Theorem equal_operations_produce_nothing :
  (forall pageIndex l1 e l2 changes v,
      type e = equal ->
      process_hunk pageIndex (mkHunk (l1 ++ e :: l2)) changes v =
      process_hunk pageIndex (mkHunk (l1 ++ l2)) changes v) /\
  (forall pageIndex ops changes v,
      process_hunk pageIndex (mkHunk (filter is_equal ops)) changes v = (v, Ok changes)) /\
  (forall ops i op,
      nth_error (filter_operations ops) i = Some op -> type op <> equal) /\
  (forall pageIndex op changes v,
      type op = equal -> processOperation pageIndex op changes v = (v, Ok changes)).
Proof.
  split; [|split; [|split]].
  - intros pageIndex l1 e l2 changes v He. unfold process_hunk.
    cbn [operations]. now rewrite (filter_operations_equal _ _ _ He).
  - intros pageIndex ops changes v. unfold process_hunk. cbn [operations].
    rewrite filter_operations_only_equal. reflexivity.
  - intros ops i op Hnth Hty. apply nth_error_In in Hnth.
    unfold filter_operations in Hnth. apply filter_In in Hnth as [_ Hne].
    unfold is_equal in Hne. now rewrite Hty in Hne.
  - intros pageIndex op changes v Hty. unfold processOperation. now rewrite Hty.
Qed.

(** C10 on a delete and an insert with an unchanged word between them:
    the hunk gives what the delete followed by the insert gives. *)
Lemma equal_operations_produce_nothing_witness :
  process_hunk 0 (mkHunk ([old_text] ++ unchanged :: [new_words])) [] sample_viewers =
  process_hunk 0 (mkHunk replacement_operations) [] sample_viewers.
Proof.
  exact (proj1 equal_operations_produce_nothing 0 [old_text] unchanged [new_words] []
           sample_viewers eq_refl).
Defined.

(* ------------------------------------------------------------------ *)
(** ** The global index *)

Lemma merge_changes_later global changes key later :
  NoDup (JsMap.keys changes) -> JsMap.get key changes = Some later ->
  JsMap.get key (merge_changes global changes) = Some later.
Proof.
  intros Hnd Hget. unfold merge_changes, JsMap.of_entries.
  rewrite fold_left_app. now apply fold_entries_last.
Qed.


Lemma set_instances_same w v : instances w = Some v -> set_instances (Some v) w = w.
Proof. destruct w; simpl. now intros ->. Qed.


(** C6.  The key of a change is computed from the rectangle alone: the
    same operation processed for two pages is written at the same key.
    When the map of a page is merged into the global index and both hold
    the key, the merged index holds the entry of the page under that key
    and holds every key once, so the entry of the earlier page is gone.
    On a run of two pages with a delete in the same block of each, the
    global index ends with the single entry of page 1. *)
Theorem later_page_overwrites_same_origin :
  (forall p1 p2 operations i changes v1 v2 v1' v2' i1 i2 changes1 changes2 op,
      walk_step p1 operations i changes v1 = (v1', Ok (i1, changes1)) ->
      walk_step p2 operations i changes v2 = (v2', Ok (i2, changes2)) ->
      nth_error operations i = Some op -> type op <> equal ->
      JsMap.keys changes1 = JsMap.keys changes2) /\
  (forall global changes key earlier later,
      JsMap.get key global = Some earlier ->
      NoDup (JsMap.keys changes) ->
      JsMap.get key changes = Some later ->
      JsMap.get key (merge_changes global changes) = Some later /\
      NoDup (JsMap.keys (merge_changes global changes))) /\
  (exists w,
      compareDocuments (Some two_pages_same_origin) initial_world = (w, Ok tt) /\
      operationsRef w = [("10,20"%string, second_delete_on_page_1)]).
Proof.
  split; [|split].
  - intros p1 p2 operations i changes v1 v2 v1' v2' i1 i2 changes1 changes2 op H1 H2 Hop Hty.
    destruct (walk_step_writes_at _ _ _ _ _ _ _ _ _ H1 Hop Hty) as (r1 & e1 & Hk1 & -> & _).
    destruct (walk_step_writes_at _ _ _ _ _ _ _ _ _ H2 Hop Hty) as (r2 & e2 & Hk2 & -> & _).
    rewrite Hk1 in Hk2. injection Hk2 as <-. now rewrite !map_keys_set.
  - intros global changes key earlier later _ Hnd Hget. split.
    + now apply merge_changes_later.
    + apply of_entries_NoDup.
  - eexists. split; vm_compute; reflexivity.
Qed.

(** The merge of C6 on the entries the two pages of the sample run give. *)
Lemma later_page_overwrites_same_origin_witness :
  JsMap.get "10,20"%string
    (merge_changes after_first_delete [("10,20"%string, second_delete_on_page_1)])
  = Some second_delete_on_page_1.
Proof.
  refine (proj1 (proj1 (proj2 later_page_overwrites_same_origin)
                   after_first_delete [("10,20"%string, second_delete_on_page_1)]
                   "10,20"%string _ second_delete_on_page_1 eq_refl _ eq_refl)).
  repeat constructor. intros [].
Defined.

(* ------------------------------------------------------------------ *)
(** ** A result without the collection *)



(** The whole run over a first page without the collection: no error,
    and the one change of page 1 in the index. *)
Lemma malformed_first_page_run :
  exists w,
    compareDocuments (Some first_page_malformed) initial_world = (w, Ok tt) /\
    map (fun kv => (fst kv, Change.pageIndex (snd kv))) (operationsRef w)
      = [("10,20"%string, Some 1)] /\
    operationsMap w = operationsRef w.
Proof. eexists. repeat split; vm_compute; reflexivity. Qed.

(* ================================================================== *)
(** * Facts about the synchroniser *)
(* ================================================================== *)

Lemma put_instance_same s v : put_instance s (instance_of s v) v = v.
Proof. now destruct s, v. Qed.



Lemma instance_of_other_put s i v :
  instance_of s (put_instance (other s) i v) = instance_of s v.
Proof. now destruct s. Qed.

Lemma set_instances_twice o o' w : set_instances o (set_instances o' w) = set_instances o w.
Proof. reflexivity. Qed.

Lemma on_instance_gets {A} s (f : Instance -> A) w v :
  instances w = Some v -> on_instance s (gets f) w = (w, Ok (f (instance_of s v))).
Proof.
  intros Hv. unfold on_instance, on_viewers, focus, gets. rewrite Hv.
  now rewrite put_instance_same, (set_instances_same _ _ Hv).
Qed.

Lemma on_instance_modify s (f : Instance -> Instance) w v :
  instances w = Some v ->
  on_instance s (modify f) w =
    (set_instances (Some (put_instance s (f (instance_of s v)) v)) w, Ok tt).
Proof.
  intros Hv. unfold on_instance, on_viewers, focus, modify. now rewrite Hv.
Qed.

Lemma on_instance_unloaded {A} s (m : M Instance A) w :
  instances w = None -> on_instance s m w = (w, Throw TypeError).
Proof. intros Hv. unfold on_instance, on_viewers. now rewrite Hv. Qed.

(** A listener that is invoked while a pass is in progress returns at
    its first line. *)
Lemma listener_ignored_while_syncing depth s w :
  isSyncingRef w = true -> listener depth s w = w.
Proof.
  intros H. destruct depth; [reflexivity|].
  cbn [listener]. unfold sync_from. rewrite H, orb_true_r. reflexivity.
Qed.

(** With the lock off a pass returns at its first line. *)
Lemma sync_from_unlocked l s w :
  isScrollLockedRef w = false -> sync_from l s w = (w, Ok tt).
Proof. intros H. unfold sync_from. now rewrite H. Qed.

Section GuardedListener.

Variable l : Side -> World -> World.
Hypothesis l_ignored : forall s w, isSyncingRef w = true -> l s w = w.

(** While the guard is up, [setViewState] behaves as if no listener were
    registered, and writes the views only. *)
Lemma setViewState_guarded s vs w :
  isSyncingRef w = true ->
  setViewState l s vs w = setViewState (fun _ x => x) s vs w /\
  exists o, fst (setViewState l s vs w) = set_instances o w.
Proof.
  intros Hg. unfold setViewState, bind.
  destruct (instances w) as [v|] eqn:Hv.
  - rewrite (on_instance_gets _ _ _ _ Hv).
    destruct (setViewStateScript (instance_of s v)) as [|[|] script].
    + rewrite (on_instance_modify _ _ _ _ Hv).
      destruct (_ =? _), (zoom_eqb _ _); unfold modify, ret; cbv beta iota;
        repeat match goal with
               | |- context [l ?t (set_instances ?o w)] =>
                   rewrite (l_ignored t (set_instances o w) Hg)
               end;
        (split; [reflexivity | eexists; reflexivity]).
    + rewrite (on_instance_modify _ _ _ _ Hv). unfold throw.
      split; [reflexivity | eexists; reflexivity].
    + rewrite (on_instance_modify _ _ _ _ Hv).
      destruct (_ =? _), (zoom_eqb _ _); unfold modify, ret; cbv beta iota;
        repeat match goal with
               | |- context [l ?t (set_instances ?o w)] =>
                   rewrite (l_ignored t (set_instances o w) Hg)
               end;
        (split; [reflexivity | eexists; reflexivity]).
  - rewrite (on_instance_unloaded _ _ _ Hv).
    split; [reflexivity|]. exists None. destruct w; simpl in *. now subst.
Qed.

(** While the guard is up, the block of a pass behaves as if no listener
    were registered, and writes the views only. *)
Lemma sync_block_guarded s w :
  isSyncingRef w = true ->
  sync_block l s w = sync_block (fun _ x => x) s w /\
  exists o, fst (sync_block l s w) = set_instances o w.
Proof.
  intros Hg. unfold sync_block, bind.
  destruct (instances w) as [v|] eqn:Hv.
  2:{ rewrite (on_instance_unloaded _ _ _ Hv). split; [reflexivity|].
      exists None. destruct w; simpl in *. now subst. }
  rewrite !(on_instance_gets _ _ _ _ Hv).
  set (tvs := viewState (instance_of (other s) v)).
  set (svs := viewState (instance_of s v)).
  assert (Hz : forall P : World * result unit -> World * result unit -> Prop,
             (forall w1 r, isSyncingRef w1 = true -> (exists o, w1 = set_instances o w) ->
                           P (w1, r) (w1, r)) ->
             P ((if negb (zoom_eqb (zoom tvs) (zoom svs))
                 then setViewState l (other s) (set_zoom tvs (zoom svs))
                 else ret tt) w)
               ((if negb (zoom_eqb (zoom tvs) (zoom svs))
                 then setViewState (fun _ x => x) (other s) (set_zoom tvs (zoom svs))
                 else ret tt) w)).
  { intros P HP. destruct (negb _).
    - destruct (setViewState_guarded (other s) (set_zoom tvs (zoom svs)) w Hg) as [E [o Ho]].
      rewrite <- E. destruct (setViewState l _ _ w) as [w1 r]. cbn [fst] in Ho.
      apply HP; [subst w1; exact Hg | now exists o].
    - unfold ret. apply HP; [exact Hg|]. exists (instances w). now destruct w. }
  apply Hz. intros w1 r Hg1 [o1 Ho1]. destruct r as [[]|e].
  2:{ split; [reflexivity | now exists o1]. }
  destruct (negb (currentPageIndex tvs =? currentPageIndex svs)).
  - destruct (setViewState_guarded (other s) (set_currentPageIndex tvs (currentPageIndex svs))
                w1 Hg1) as [E [o Ho]].
    split; [exact E|]. exists o. rewrite Ho, Ho1. reflexivity.
  - split; [reflexivity|].
    destruct (instances w1) as [v1|] eqn:Hv1.
    + rewrite !(on_instance_gets _ _ _ _ Hv1).
      destruct (scrollElement (instance_of s v1)), (scrollElement (instance_of (other s) v1));
        try (unfold ret; now exists o1).
      rewrite (on_instance_modify _ _ _ _ Hv1). cbn [fst].
      eexists. rewrite Ho1. reflexivity.
    + rewrite (on_instance_unloaded _ _ _ Hv1). now exists o1.
Qed.

(** A pass under a listener that honours the guard: the same as with no
    listener, the guard down again at the end and written twice, and
    nothing but the views and the guard's history changed. *)
Lemma sync_from_guarded s w :
  isScrollLockedRef w = true -> isSyncingRef w = false ->
  sync_from l s w = sync_from (fun _ x => x) s w /\
  exists o,
    fst (sync_from l s w) =
      set_instances o
        (set_isSyncingRef false (GuardCleared s) (set_isSyncingRef true (GuardSet s) w)).
Proof.
  intros Hl Hg. unfold sync_from, try_finally. rewrite Hl, Hg. cbn [negb orb].
  destruct (sync_block_guarded s (set_isSyncingRef true (GuardSet s) w) eq_refl)
    as [E [o Ho]].
  rewrite <- E. destruct (sync_block l s _) as [w1 r]. cbn [fst] in *.
  split; [reflexivity|]. exists o. now rewrite Ho.
Qed.

End GuardedListener.

Lemma Forall_tail {A} (P : A -> Prop) (l : list A) : Forall P l -> Forall P (tl l).
Proof. intros H. destruct l; [constructor | now inversion H]. Qed.

(** [setViewState] on an engine that accepts, with no listener. *)
Lemma setViewState_accepted s vs w v :
  instances w = Some v ->
  Forall (fun refuses => refuses = false) (setViewStateScript (instance_of s v)) ->
  setViewState (fun _ x => x) s vs w =
    (set_instances
       (Some (put_instance s
                (with_viewState
                   (with_setViewStateScript (instance_of s v)
                      (tl (setViewStateScript (instance_of s v))))
                   vs)
                v))
       w,
     Ok tt).
Proof.
  intros Hv Hacc. unfold setViewState, bind.
  rewrite (on_instance_gets _ _ _ _ Hv).
  destruct (setViewStateScript (instance_of s v)) as [|[|] script] eqn:Es.
  - rewrite (on_instance_modify _ _ _ _ Hv).
    destruct (_ =? _), (zoom_eqb _ _); reflexivity.
  - inversion Hacc; discriminate.
  - rewrite (on_instance_modify _ _ _ _ Hv).
    destruct (_ =? _), (zoom_eqb _ _); reflexivity.
Qed.



(** C4.  A pass that starts with the lock on and the guard down: every
    handler that runs while the guard is up returns at once and leaves
    the state as it is, whatever view fired and however deep the engine
    re-enters the listeners from inside [setViewState]; so the pass is
    the pass of an engine that fires no event at all; the guard is down
    again when the pass ends, whether the engine threw or not; and the
    guard was written twice, up at the start and down at the end. *)
Theorem synchronisation_never_recurses depth s ev w :
  isScrollLockedRef w = true -> isSyncingRef w = false ->
  (forall d t e x, isSyncingRef x = true -> handle_view_event d t e x = (x, Ok tt)) /\
  (forall d t x, isSyncingRef x = true -> listener d t x = x) /\
  handle_view_event depth s ev w = sync_from (fun _ x => x) s w /\
  isSyncingRef (fst (handle_view_event depth s ev w)) = false /\
  guardWrites (fst (handle_view_event depth s ev w)) =
    guardWrites w ++ [GuardSet s; GuardCleared s].
Proof.
  intros Hl Hg.
  assert (Hh : handle_view_event depth s ev = sync_from (listener depth) s)
    by now destruct s.
  split; [|split].
  - intros d t e x Hx.
    replace (handle_view_event d t e) with (sync_from (listener d) t) by now destruct t.
    unfold sync_from. now rewrite Hx, orb_true_r.
  - intros d t x. apply listener_ignored_while_syncing.
  - rewrite Hh.
    destruct (sync_from_guarded (listener depth) (listener_ignored_while_syncing depth)
                s w Hl Hg) as [E [o Ho]].
    split; [exact E|]. rewrite Ho. cbn. split; [reflexivity|].
    now rewrite <- app_assoc.
Qed.

(** C4 on a pass in which the engine refuses the view state of the
    target: the pass throws, the guard is down again and was written
    twice. *)
Lemma synchronisation_never_recurses_witness :
  snd (handle_view_event 3 Original ZoomChangeEvent refusing_world) = Throw EngineRejected /\
  isSyncingRef (fst (handle_view_event 3 Original ZoomChangeEvent refusing_world)) = false /\
  guardWrites (fst (handle_view_event 3 Original ZoomChangeEvent refusing_world)) =
    [GuardSet Original; GuardCleared Original].
Proof.
  destruct (synchronisation_never_recurses 3 Original ZoomChangeEvent refusing_world
              eq_refl eq_refl) as (_ & _ & _ & Hdown & Hwrites).
  split; [reflexivity|]. split; [exact Hdown | exact Hwrites].
Defined.



(* ================================================================== *)
(** * Facts about navigation *)
(* ================================================================== *)

(** C7.  [handlePreviousChange] with the selected index at 0 (or below)
    and [handleNextChange] with the selected index at the last index (or
    beyond, which is where an empty index puts it) return the state they
    were given: no index, no scroll offset, no annotation changes. *)
Theorem navigation_clamps depth w :
  (selectedChangeIndex w <= 0 -> handlePreviousChange depth w = (w, Ok tt)) /\
  (JsMap.size (operationsMap w) - 1 <= selectedChangeIndex w ->
   handleNextChange depth w = (w, Ok tt)).
Proof.
  split; intros H.
  - unfold handlePreviousChange.
    destruct (selectedChangeIndex w >? 0) eqn:E; [|reflexivity].
    apply Z.gtb_lt in E. lia.
  - unfold handleNextChange, JsMap.size in *.
    destruct (selectedChangeIndex w <? Z.of_nat (List.length (operationsMap w)) - 1) eqn:E;
      [|reflexivity].
    apply Z.ltb_lt in E. lia.
Qed.

(** C7 on the component after a run with two changes: previous at the
    first change and next at the second change do nothing. *)
Lemma navigation_clamps_witness :
  handlePreviousChange 3 compared_world = (compared_world, Ok tt) /\
  handleNextChange 3 (setSelectedChangeIndex 1 compared_world)
    = (setSelectedChangeIndex 1 compared_world, Ok tt).
Proof.
  split.
  - apply (proj1 (navigation_clamps 3 compared_world)). vm_compute. discriminate.
  - apply (proj2 (navigation_clamps 3 (setSelectedChangeIndex 1 compared_world))).
    vm_compute. discriminate.
Defined.

(** Away from the bounds navigation does move: next from the first
    change selects the second, brings both views to page 1 (below the
    first page of height 800 and the gap of 10) and draws the border in
    the original view. *)
Lemma next_from_first_change :
  let out := handleNextChange 3 compared_world in
  snd out = Ok tt /\
  selectedChangeIndex (fst out) = 1 /\
  option_map (fun v => viewState (originalInstance v)) (instances (fst out))
    = Some (mkViewState 1 (ZoomNumber (px 1))) /\
  option_map (fun v => viewState (changedInstance v)) (instances (fst out))
    = Some (mkViewState 1 (ZoomNumber (px 1))) /\
  option_map (fun v => option_map (fun e => JsNum.toString (scrollTop e))
                         (scrollElement (originalInstance v)))
    (instances (fst out)) = Some (Some "810"%string) /\
  selectionAnnotationIdsRef (fst out) = ["border"%string].
Proof. vm_compute. repeat split. Qed.

(** A click on the highlight of the second change selects it. *)
Lemma click_on_second_highlight :
  JsMap.get "d2"%string (annotationToChangeIndexRef compared_world) = Some 1 /\
  selectedChangeIndex (fst (handleAnnotationClick 3 "d2"%string compared_world)) = 1.
Proof. vm_compute. split; reflexivity. Qed.

(* ================================================================== *)
(** * Facts about the earlier page *)
(* ================================================================== *)

(** The earlier page keys every operation, a delete too, by the first
    block of the changed document; the page of this development keys a
    delete by the first block of the original document. *)
Lemma legacy_delete_keyed_by_changed_block :
  JsMap.keys
    (Legacy.changes
       (fst (Legacy.processOperation 0 shifted_delete (Legacy.mkPageState [] [] []))))
    = ["30,40"%string] /\
  keyed_rect shifted_delete = Some (mkRectArray (px 10) (px 20) (px 50) (px 12)).
Proof. split; reflexivity. Qed.

(** The earlier page never hands an equal operation to
    [processOperation]. *)
Lemma legacy_equal_operations_skipped pageIndex ops st :
  Forall (fun op => type op = equal) ops ->
  Legacy.process_comparison pageIndex (one_hunk ops) st = (st, Ok tt).
Proof.
  intros Hall. unfold Legacy.process_comparison, one_hunk.
  cbn [for_each comparisonResults hunks operations]. unfold bind at 1 2 3.
  assert (H : for_each ops
                (fun operation (_ : unit) =>
                   if negb (is_equal operation)
                   then Legacy.processOperation pageIndex operation
                   else ret tt) tt st = (st, Ok tt)).
  { induction Hall as [|op ops Hop _ IH]; [reflexivity|].
    cbn [for_each]. unfold bind, is_equal. rewrite Hop. cbn [negb]. exact IH. }
  rewrite H. reflexivity.
Qed.

(* ================================================================== *)
(** * More about the aggregator *)
(* ================================================================== *)



(** X2.  A delete that is processed alone never touches the changed
    view, an insert never touches the original view, and an equal
    operation touches neither, whether the engine answers or rejects; in
    the view it does touch, the view state and the scroll element stay
    and the annotations that were there stay in their places. *)
Theorem standalone_change_touches_one_view pageIndex op changes v :
  let v' := fst (processOperation pageIndex op changes v) in
  match type op with
  | delete =>
      changedInstance v' = changedInstance v /\
      viewState (originalInstance v') = viewState (originalInstance v) /\
      scrollElement (originalInstance v') = scrollElement (originalInstance v) /\
      exists added,
        annotations (originalInstance v') = annotations (originalInstance v) ++ added
  | insert =>
      originalInstance v' = originalInstance v /\
      viewState (changedInstance v') = viewState (changedInstance v) /\
      scrollElement (changedInstance v') = scrollElement (changedInstance v) /\
      exists added,
        annotations (changedInstance v') = annotations (changedInstance v) ++ added
  | equal => v' = v
  end.
Proof.
  unfold processOperation. destruct (type op); [reflexivity| |].
  - destruct (originalTextBlocks op) as [|blk blks]; cbn [first_rect];
      unfold bind, throw, ret, on_original, focus, create.
    + cbn [fst]. repeat split. exists []. now rewrite app_nil_r.
    + destruct (createScript (originalInstance v)) as [|[ids|] script]; cbn;
        repeat split; try (exists []; now rewrite app_nil_r).
      eexists. reflexivity.
  - destruct (changedTextBlocks op) as [|blk blks]; cbn [first_rect];
      unfold bind, throw, ret, on_changed, focus, create.
    + cbn [fst]. repeat split. exists []. now rewrite app_nil_r.
    + destruct (createScript (changedInstance v)) as [|[ids|] script]; cbn;
        repeat split; try (exists []; now rewrite app_nil_r).
      eexists. reflexivity.
Qed.

(* ------------------------------------------------------------------ *)
(** ** What the map of a page holds *)

Lemma id_entries_nonempty a : Forall (fun id => id <> EmptyString) (id_entries a).
Proof.
  destruct a as [id|]; simpl; [|constructor].
  destruct id; simpl; repeat constructor. discriminate.
Qed.

Lemma delete_entry_of_page p op r a existing :
  (forall e, existing = Some e -> entry_of_page p e) ->
  entry_of_page p (delete_entry p op r a existing).
Proof.
  intros Hex. destruct existing as [e|]; cbn [delete_entry].
  - destruct (Hex e eq_refl) as (_ & _ & Hins & _ & ids & Hids & Hall).
    unfold entry_of_page. cbn. repeat split.
    + left. repeat split; discriminate.
    + exact Hins.
    + now left.
    + eexists. split; [reflexivity|]. rewrite Hids. cbn.
      apply Forall_app. split; [exact Hall | apply id_entries_nonempty].
  - unfold entry_of_page. cbn. repeat split.
    + left. repeat split; discriminate.
    + right. repeat split.
    + now left.
    + eexists. split; [reflexivity | apply id_entries_nonempty].
Qed.

Lemma insert_entry_of_page p op r a existing :
  (forall e, existing = Some e -> entry_of_page p e) ->
  entry_of_page p (insert_entry p op r a existing).
Proof.
  intros Hex. destruct existing as [e|]; cbn [insert_entry].
  - destruct (Hex e eq_refl) as (_ & Hdel & _ & _ & ids & Hids & Hall).
    unfold entry_of_page. cbn. repeat split.
    + exact Hdel.
    + left. repeat split; discriminate.
    + now right.
    + eexists. split; [reflexivity|]. rewrite Hids. cbn.
      apply Forall_app. split; [exact Hall | apply id_entries_nonempty].
  - unfold entry_of_page. cbn. repeat split.
    + right. repeat split.
    + left. repeat split; discriminate.
    + now right.
    + eexists. split; [reflexivity | apply id_entries_nonempty].
Qed.

Lemma replacement_entry_of_page p d i r1 r2 a1 a2 :
  entry_of_page p (replacement_entry p d i r1 r2 a1 a2).
Proof.
  unfold entry_of_page, replacement_entry. cbn. repeat split.
  - left. repeat split; discriminate.
  - left. repeat split; discriminate.
  - now left.
  - eexists. split; [reflexivity|].
    apply Forall_app. split; apply id_entries_nonempty.
Qed.

Lemma page_map_set p key entry changes :
  page_map p changes -> entry_of_page p entry ->
  page_map p (JsMap.set key entry changes).
Proof.
  intros [Hnd Hall] He. split; [now apply map_set_NoDup|].
  intros k e Hget. destruct (string_dec key k) as [<-|Hne].
  - rewrite map_get_set_same in Hget. now injection Hget as <-.
  - rewrite (map_get_set_other _ _ _ _ Hne) in Hget. eauto.
Qed.

Lemma walk_step_page_map p operations i changes v v' i' changes' :
  walk_step p operations i changes v = (v', Ok (i', changes')) ->
  page_map p changes -> page_map p changes'.
Proof.
  intros Hstep Hmap.
  apply walk_step_ok in Hstep
    as (op & _ & [(o & _ & _ & _ & Hrep & _) | (_ & Hproc & _)]).
  - apply processReplacement_ok in Hrep as (d & ds & b & bs & a1 & a2 & _ & _ & ->).
    apply page_map_set; [exact Hmap | apply replacement_entry_of_page].
  - apply processOperation_ok in Hproc. destruct (type op).
    + destruct Hproc as [_ ->]. exact Hmap.
    + destruct Hproc as (r & created & _ & _ & ->).
      apply page_map_set; [exact Hmap|]. apply delete_entry_of_page.
      intros e He. exact (proj2 Hmap _ _ He).
    + destruct Hproc as (r & created & _ & _ & ->).
      apply page_map_set; [exact Hmap|]. apply insert_entry_of_page.
      intros e He. exact (proj2 Hmap _ _ He).
Qed.

Lemma walk_loop_page_map fuel p operations i changes v v' changes' :
  walk_loop fuel p operations i changes v = (v', Ok changes') ->
  page_map p changes -> page_map p changes'.
Proof.
  revert i changes v. induction fuel as [|fuel IH]; intros i changes v;
    cbn [walk_loop]; destruct (i <? List.length operations)%nat;
    unfold ret, throw; try (intros H; now inversion H).
  unfold bind.
  destruct (walk_step p operations i changes v) as [v1 [[i1 c1]|e]] eqn:Es;
    [|discriminate].
  intros Hrest Hmap. apply (IH _ _ _ Hrest).
  exact (walk_step_page_map _ _ _ _ _ _ _ _ Es Hmap).
Qed.

(** An invariant of the accumulator of a loop is an invariant of the
    loop. *)
Lemma for_each_invariant {S A B} (I : B -> Prop) (body : A -> B -> M S B) l :
  (forall x acc s s' acc', In x l -> body x acc s = (s', Ok acc') -> I acc -> I acc') ->
  forall acc s s' acc',
    for_each l body acc s = (s', Ok acc') -> I acc -> I acc'.
Proof.
  induction l as [|x l IH]; intros Hbody acc s s' acc'; cbn [for_each].
  - unfold ret. intros H. now inversion H.
  - unfold bind. destruct (body x acc s) as [s1 [acc1|e]] eqn:Eb; [|discriminate].
    intros Hrest Hacc. refine (IH _ _ _ _ _ Hrest _).
    + intros y a t t' a' Hy. apply Hbody. now right.
    + exact (Hbody x acc s s1 acc1 (or_introl eq_refl) Eb Hacc).
Qed.

Lemma process_comparison_page_map p comparisonResult v v' changes :
  process_comparison p comparisonResult v = (v', Ok changes) ->
  page_map p changes.
Proof.
  assert (Hempty : page_map p []).
  { split; [constructor | intros k e H; discriminate]. }
  destruct comparisonResult as [| |docs]; cbn [process_comparison]; unfold ret;
    try (intros H; inversion H; subst; exact Hempty).
  intros Hrun. revert Hrun Hempty. apply for_each_invariant.
  intros doc acc s s' acc' _. apply for_each_invariant.
  intros res acc1 s1 s1' acc1' _. apply for_each_invariant.
  intros hunk acc2 s2 s2' acc2' _. unfold process_hunk. apply walk_loop_page_map.
Qed.

(** X3.  Whatever the engine answered for a page, the map the page ends
    with holds every key once, and every entry of it carries the index of
    the page, has the flag of a side set exactly when the text and the
    rectangle of that side are recorded, has at least one flag set, and
    lists only identifiers that are not empty. *)
Theorem page_changes_are_well_formed pageIndex comparisonResult v v' changes :
  process_comparison pageIndex comparisonResult v = (v', Ok changes) ->
  page_map pageIndex changes.
Proof. apply process_comparison_page_map. Qed.

(** X3 on the scenario of the specification. *)
Lemma page_changes_are_well_formed_witness :
  page_map 0 [("10,20"%string,
               Change.mk (Some "old text"%string) (Some "new words"%string)
                 (Some true) (Some true) (Some 0)
                 (Some (Geometry.mkRect (px 10) (px 20) (px 50) (px 12)))
                 (Some (Geometry.mkRect (px 10) (px 20) (px 60) (px 12)))
                 (Some ["d1"%string; "i1"%string]))].
Proof.
  exact (page_changes_are_well_formed 0 (one_hunk replacement_operations) sample_viewers
           _ _ eq_refl).
Defined.

(* ------------------------------------------------------------------ *)
(** ** The loops of a page end *)

Lemma for_each_not_out_of_fuel {S A B} (body : A -> B -> M S B) l :
  (forall x acc s, snd (body x acc s) <> Throw OutOfFuel) ->
  forall acc s, snd (for_each l body acc s) <> Throw OutOfFuel.
Proof.
  intros Hbody. induction l as [|x l IH]; intros acc s; cbn [for_each].
  - simpl. congruence.
  - unfold bind. pose proof (Hbody x acc s) as Hx.
    destruct (body x acc s) as [s1 [acc1|e]]; [apply IH | exact Hx].
Qed.

(** X4.  The walk over the operations of a page always ends: the model
    gives the loop of a hunk as many turns as the hunk has operations
    left after the filter, and no page runs out of them, whatever the
    operations are and whatever the engine answers. *)
Theorem page_walk_ends pageIndex comparisonResult v :
  snd (process_comparison pageIndex comparisonResult v) <> Throw OutOfFuel.
Proof.
  destruct comparisonResult as [| |docs]; cbn [process_comparison];
    try (simpl; congruence).
  apply for_each_not_out_of_fuel. intros doc acc s.
  apply for_each_not_out_of_fuel. intros res acc1 s1.
  apply for_each_not_out_of_fuel. intros hunk acc2 s2.
  apply process_hunk_ends.
Qed.

(* ------------------------------------------------------------------ *)
(** ** The global index across pages and runs *)

Lemma fold_entries_keys {V} (l acc : list (string * V)) :
  exists extra,
    JsMap.keys (fold_left JsMap.put_entry l acc) = JsMap.keys acc ++ extra /\
    forall k, In k extra <-> (In k (JsMap.keys l) /\ ~ In k (JsMap.keys acc)).
Proof.
  revert acc. induction l as [|[k v] l IH]; intros acc; cbn [fold_left].
  - exists []. rewrite app_nil_r. split; [reflexivity|]. intros k. simpl. tauto.
  - destruct (IH (JsMap.put_entry acc (k, v))) as (extra & Hk & Hin).
    unfold JsMap.put_entry in *. cbn [fst snd] in *.
    rewrite map_keys_set in Hk, Hin. unfold JsMap.has in *.
    destruct (JsMap.get k acc) eqn:Eg.
    + assert (Hpresent : In k (JsMap.keys acc)).
      { destruct (in_dec string_dec k (JsMap.keys acc)) as [H|H]; [exact H|].
        apply map_get_none_iff in H. congruence. }
      exists extra. split; [exact Hk|]. intros k0. rewrite Hin.
      unfold JsMap.keys in *. cbn [map fst In].
      split; [tauto|]. intros [[<-|H1] H2]; tauto.
    + apply map_get_none_iff in Eg.
      exists (k :: extra). split; [rewrite Hk, <- app_assoc; reflexivity|].
      intros k0. unfold JsMap.keys in *. cbn [In map fst].
      rewrite Hin, in_app_iff. cbn [In].
      destruct (string_dec k k0) as [<-|Hne]; tauto.
Qed.

Lemma merge_changes_fold global changes :
  NoDup (JsMap.keys global) ->
  merge_changes global changes = fold_left JsMap.put_entry changes global.
Proof.
  intros H. unfold merge_changes, JsMap.of_entries. rewrite fold_left_app.
  f_equal. exact (of_entries_id _ H).
Qed.

(** X5.  Merging the map of a page into a global index that holds every
    key once keeps the keys of the index in their places and puts the
    new keys of the page after them, keeps the entry of every key the
    page does not hold, and holds exactly the keys of the two. *)
Theorem merge_keeps_earlier_changes global changes :
  NoDup (JsMap.keys global) ->
  (exists added,
      JsMap.keys (merge_changes global changes) = JsMap.keys global ++ added /\
      forall k, In k added <->
                (In k (JsMap.keys changes) /\ ~ In k (JsMap.keys global))) /\
  (forall k, ~ In k (JsMap.keys changes) ->
             JsMap.get k (merge_changes global changes) = JsMap.get k global) /\
  NoDup (JsMap.keys (merge_changes global changes)).
Proof.
  intros Hnd. split; [|split].
  - rewrite (merge_changes_fold _ _ Hnd). apply fold_entries_keys.
  - intros k Hk. rewrite (merge_changes_fold _ _ Hnd). now apply fold_entries_absent.
  - apply of_entries_NoDup.
Qed.

(** X5 on the index the first delete left and a page with a change in
    another block. *)
Lemma merge_keeps_earlier_changes_witness :
  JsMap.get "10,20"%string
    (merge_changes after_first_delete [("10.5,20.25"%string, second_delete_on_page_1)])
  = JsMap.get "10,20"%string after_first_delete.
Proof.
  refine (proj1 (proj2 (merge_keeps_earlier_changes after_first_delete
                          [("10.5,20.25"%string, second_delete_on_page_1)] _))
            "10,20"%string _).
  - repeat constructor. intros [].
  - intros [H|[]]. discriminate H.
Defined.

Lemma merge_changes_keeps_keys global changes k :
  In k (JsMap.keys global) -> In k (JsMap.keys (merge_changes global changes)).
Proof.
  intros H. unfold merge_changes, JsMap.of_entries.
  destruct (fold_entries_keys (global ++ changes) (@nil (string * ChangeOperation)))
    as (extra & -> & Hin).
  cbn [JsMap.keys map app]. apply Hin. split; [|intros []].
  unfold JsMap.keys. rewrite map_app. apply in_or_app. now left.
Qed.

Lemma on_viewers_keeps_but_instances {A} (m : M Viewers A) w :
  exists o, fst (on_viewers m w) = set_instances o w.
Proof.
  unfold on_viewers. destruct (instances w) as [v|] eqn:Hv.
  - destruct (m v) as [v' res]. now exists (Some v').
  - exists None. destruct w; cbn in *. now subst.
Qed.

(** What the loop over the pages does to the state. *)
Lemma page_loop_index pageIndex pages w :
  let w' := fst (page_loop pageIndex pages w) in
  (forall k, In k (JsMap.keys (operationsRef w)) -> In k (JsMap.keys (operationsRef w'))) /\
  (NoDup (JsMap.keys (operationsRef w)) -> NoDup (JsMap.keys (operationsRef w'))) /\
  operationsMap w' = operationsMap w /\
  selectedChangeIndex w' = selectedChangeIndex w /\
  annotationToChangeIndexRef w' = annotationToChangeIndexRef w /\
  selectionAnnotationIdsRef w' = selectionAnnotationIdsRef w /\
  isScrollLockedRef w' = isScrollLockedRef w.
Proof.
  revert pageIndex w. induction pages as [|c rest IH]; intros pageIndex w; cbn [page_loop];
    cbv zeta.
  - cbn. tauto.
  - unfold bind.
    destruct (on_viewers_keeps_but_instances (process_comparison pageIndex c) w) as [o Ho].
    destruct (on_viewers (process_comparison pageIndex c) w) as [w1 [changes|e]];
      cbn [fst] in Ho; subst w1.
    + unfold bind, modify.
      specialize (IH (pageIndex + 1)
                    (set_operationsRef
                       (merge_changes (operationsRef (set_instances o w)) changes)
                       (set_instances o w))).
      cbn zeta in IH. cbn [operationsRef set_operationsRef set_instances operationsMap
                            selectedChangeIndex annotationToChangeIndexRef
                            selectionAnnotationIdsRef isScrollLockedRef] in IH.
      destruct (page_loop (pageIndex + 1) rest _) as [w2 res]. cbn [fst] in *.
      destruct IH as (Hk & Hnd & H1 & H2 & H3 & H4 & H5).
      split; [|split; [|repeat split; assumption]].
      * intros k Hin. apply Hk. now apply merge_changes_keeps_keys.
      * intros _. apply Hnd. apply of_entries_NoDup.
    + cbn. tauto.
Qed.

(** X6.  The loop over the pages never drops a key from the global
    index, whether it ends or the engine throws on some page, and it does
    not clear the index it starts from, so a second run merges into what
    the first one left; it keeps the keys distinct, and it leaves the
    rendered map, the selected index, the lookup of the identifiers and
    the lock as they were. *)
Theorem page_loop_only_grows_the_index pageIndex pages w :
  let w' := fst (page_loop pageIndex pages w) in
  (forall k, In k (JsMap.keys (operationsRef w)) -> In k (JsMap.keys (operationsRef w'))) /\
  (NoDup (JsMap.keys (operationsRef w)) -> NoDup (JsMap.keys (operationsRef w'))) /\
  operationsMap w' = operationsMap w /\
  selectedChangeIndex w' = selectedChangeIndex w /\
  annotationToChangeIndexRef w' = annotationToChangeIndexRef w /\
  selectionAnnotationIdsRef w' = selectionAnnotationIdsRef w /\
  isScrollLockedRef w' = isScrollLockedRef w.
Proof. apply page_loop_index. Qed.

(** X6 on a second run over the component a first run left: the key of
    the first run is still in the index. *)
Lemma page_loop_only_grows_the_index_witness :
  In "10,20"%string
    (JsMap.keys
       (operationsRef
          (fst (page_loop 0 [one_hunk [fractional_delete]]
                  (set_operationsRef after_first_delete
                     (loaded_world two_changes_run)))))).
Proof.
  apply (proj1 (page_loop_only_grows_the_index 0 [one_hunk [fractional_delete]]
                  (set_operationsRef after_first_delete (loaded_world two_changes_run)))).
  now left.
Defined.

(** The state a run of [compareDocuments] that returns leaves. *)
Lemma compareDocuments_ok sdk w w' :
  compareDocuments (Some sdk) w = (w', Ok tt) ->
  operationsMap w' = JsMap.of_entries (operationsRef w') /\
  NoDup (JsMap.keys (operationsMap w')) /\
  (NoDup (JsMap.keys (operationsRef w)) -> operationsMap w' = operationsRef w') /\
  annotationToChangeIndexRef w' = build_annotationMap (operationsRef w') /\
  (forall k, In k (JsMap.keys (operationsRef w)) -> In k (JsMap.keys (operationsRef w'))) /\
  instances w' <> None /\
  selectedChangeIndex w' = selectedChangeIndex w /\
  isScrollLockedRef w' = isScrollLockedRef w.
Proof.
  unfold compareDocuments, bind, modify.
  set (w0 := set_instances (Some (mkViewers (loadOriginal sdk) (loadChanged sdk))) w).
  pose proof (page_loop_index 0 (pageComparisons sdk) w0) as Hloop. cbn zeta in Hloop.
  assert (Hinst : forall p pages x, instances x <> None ->
                                    instances (fst (page_loop p pages x)) <> None).
  { intros p pages. revert p. induction pages as [|c rest IH]; intros p x Hx;
      cbn [page_loop]; [exact Hx|].
    unfold bind at 1, on_viewers. destruct (instances x) as [v|] eqn:Hv; [|congruence].
    destruct (process_comparison p c v) as [v1 [changes|e]]; [|cbn; discriminate].
    unfold bind, modify. apply IH. cbn. discriminate. }
  specialize (Hinst 0 (pageComparisons sdk) w0 ltac:(discriminate)).
  destruct (page_loop 0 (pageComparisons sdk) w0) as [w1 [[]|e]]; [|discriminate].
  cbn [fst] in *. intros H. inversion H; subst; clear H.
  destruct Hloop as (Hk & Hnd & _ & Hsel & _ & _ & Hlock).
  cbn. repeat split; try assumption.
  - apply of_entries_NoDup.
  - intros Hw. apply of_entries_id. now apply Hnd.
Qed.

(** X7.  When a run of [compareDocuments] returns, the rendered map is a
    copy of the global index and holds every key once, the lookup of the
    annotation identifiers is the one built from the global index, the
    views are the ones the run loaded, with what the run created in
    them, and the selected index and the lock are what they were. *)
Theorem compareDocuments_publishes_the_index sdk w w' :
  compareDocuments (Some sdk) w = (w', Ok tt) ->
  operationsMap w' = JsMap.of_entries (operationsRef w') /\
  NoDup (JsMap.keys (operationsMap w')) /\
  (NoDup (JsMap.keys (operationsRef w)) -> operationsMap w' = operationsRef w') /\
  annotationToChangeIndexRef w' = build_annotationMap (operationsRef w') /\
  (forall k, In k (JsMap.keys (operationsRef w)) -> In k (JsMap.keys (operationsRef w'))) /\
  instances w' <> None /\
  selectedChangeIndex w' = selectedChangeIndex w /\
  isScrollLockedRef w' = isScrollLockedRef w.
Proof. apply compareDocuments_ok. Qed.

(** X7 on the run with one change on each of two pages. *)
Lemma compareDocuments_publishes_the_index_witness :
  operationsMap compared_world = JsMap.of_entries (operationsRef compared_world) /\
  annotationToChangeIndexRef compared_world =
    build_annotationMap (operationsRef compared_world).
Proof.
  destruct (compareDocuments_publishes_the_index two_changes_run initial_world
              compared_world eq_refl) as (H1 & _ & _ & H2 & _).
  split; [exact H1 | exact H2].
Defined.

(* ================================================================== *)
(** * What the handlers leave alone *)
(* ================================================================== *)

Section Frame.

Context {X : Type} (f : World -> X).
Hypothesis f_instances : forall o w, f (set_instances o w) = f w.
Hypothesis f_guard : forall b e w, f (set_isSyncingRef b e w) = f w.
Hypothesis f_selection : forall l w, f (set_selectionAnnotationIdsRef l w) = f w.

Lemma keeps_ret {A} (a : A) : keeps f (ret a).
Proof. intros w. reflexivity. Qed.

Lemma keeps_throw {A} e : keeps f (@throw World A e).
Proof. intros w. reflexivity. Qed.

Lemma keeps_bind {A B} (m : M World A) (k : A -> M World B) :
  keeps f m -> (forall a, keeps f (k a)) -> keeps f (bind m k).
Proof.
  intros Hm Hk w. unfold bind. specialize (Hm w).
  destruct (m w) as [w1 [a|e]]; cbn [fst] in *; [|exact Hm].
  now rewrite Hk.
Qed.

Lemma keeps_modify (g : World -> World) :
  (forall w, f (g w) = f w) -> keeps f (modify g).
Proof. intros Hg w. apply Hg. Qed.

Lemma keeps_try_catch {A} (m h : M World A) :
  keeps f m -> keeps f h -> keeps f (try_catch m h).
Proof.
  intros Hm Hh w. unfold try_catch. specialize (Hm w).
  destruct (m w) as [w1 [a|e]]; cbn [fst] in *; [exact Hm|].
  now rewrite Hh.
Qed.

Lemma keeps_for_each {A B} (body : A -> B -> M World B) l :
  (forall x acc, keeps f (body x acc)) -> forall acc, keeps f (for_each l body acc).
Proof.
  intros Hbody. induction l as [|x l IH]; intros acc; cbn [for_each].
  - apply keeps_ret.
  - apply keeps_bind; [apply Hbody | exact IH].
Qed.

Lemma keeps_on_viewers {A} (m : M Viewers A) : keeps f (on_viewers m).
Proof.
  intros w. destruct (on_viewers_keeps_but_instances m w) as [o ->]. apply f_instances.
Qed.

Lemma keeps_on_instance {A} s (m : M Instance A) : keeps f (on_instance s m).
Proof. apply keeps_on_viewers. Qed.

Section WithListener.

Variable l : Side -> World -> World.
Hypothesis l_keeps : forall s w, f (l s w) = f w.

Lemma keeps_setViewState s vs : keeps f (setViewState l s vs).
Proof.
  unfold setViewState. apply keeps_bind; [apply keeps_on_instance|]. intros i.
  destruct (setViewStateScript i) as [|[|] script].
  - apply keeps_bind; [apply keeps_on_instance|]. intros _.
    apply keeps_bind; intros;
      match goal with |- keeps _ (if ?c then _ else _) => destruct c end;
      try apply keeps_ret; apply keeps_modify, l_keeps.
  - apply keeps_bind; [apply keeps_on_instance | intros; apply keeps_throw].
  - apply keeps_bind; [apply keeps_on_instance|]. intros _.
    apply keeps_bind; intros;
      match goal with |- keeps _ (if ?c then _ else _) => destruct c end;
      try apply keeps_ret; apply keeps_modify, l_keeps.
Qed.

Lemma keeps_sync_block s : keeps f (sync_block l s).
Proof.
  unfold sync_block. apply keeps_bind; [apply keeps_on_instance|]. intros svs.
  apply keeps_bind; [apply keeps_on_instance|]. intros tvs.
  apply keeps_bind.
  - destruct (negb _); [apply keeps_setViewState | apply keeps_ret].
  - intros _. destruct (negb _); [apply keeps_setViewState|].
    apply keeps_bind; [apply keeps_on_instance|]. intros src.
    apply keeps_bind; [apply keeps_on_instance|]. intros tgt.
    destruct src, tgt; try apply keeps_ret. apply keeps_on_instance.
Qed.

Lemma keeps_sync_from s : keeps f (sync_from l s).
Proof.
  intros w. unfold sync_from, try_finally.
  destruct (negb (isScrollLockedRef w) || isSyncingRef w); [reflexivity|].
  pose proof (keeps_sync_block s (set_isSyncingRef true (GuardSet s) w)) as Hb.
  destruct (sync_block l s _) as [w1 r]. cbn [fst] in *.
  now rewrite f_guard, Hb, f_guard.
Qed.

End WithListener.

Lemma listener_keeps depth s w : f (listener depth s w) = f w.
Proof.
  revert s w. induction depth as [|depth IH]; intros s w; [reflexivity|].
  cbn [listener]. apply (keeps_sync_from (listener depth) IH).
Qed.

Lemma keeps_handle_view_event depth s ev : keeps f (handle_view_event depth s ev).
Proof.
  destruct s; apply (keeps_sync_from (listener depth) (listener_keeps depth)).
Qed.

Lemma keeps_scrollToPage depth s p off : keeps f (scrollToPage depth s p off).
Proof.
  unfold scrollToPage. apply keeps_bind; [apply keeps_on_instance|]. intros i.
  destruct (scrollElement i); [|apply keeps_ret].
  apply keeps_bind; [apply keeps_on_instance|]. intros _.
  apply keeps_bind; [apply keeps_on_instance|]. intros vs.
  apply keeps_setViewState, listener_keeps.
Qed.

Lemma keeps_add_border s flag rect p : keeps f (add_border s flag rect p).
Proof.
  unfold add_border. destruct (is_true flag), rect, p; try apply keeps_ret.
  apply keeps_bind; [apply keeps_on_instance|]. intros created.
  destruct created; [apply keeps_ret|]. apply keeps_modify. intros w. apply f_selection.
Qed.

Lemma keeps_highlightSelectedChange operation : keeps f (highlightSelectedChange operation).
Proof.
  intros w. unfold highlightSelectedChange. destruct (instances w); [|reflexivity].
  generalize (selectionAnnotationIdsRef w) at 1. intros ids. revert w.
  refine (keeps_bind _ _ _ _).
  - apply keeps_for_each. intros id acc.
    repeat apply keeps_try_catch; try apply keeps_on_instance. apply keeps_ret.
  - intros _. apply keeps_bind; [apply keeps_modify, f_selection|]. intros _.
    apply keeps_bind; intros; apply keeps_add_border.
Qed.

Lemma keeps_show_change depth operation : keeps f (show_change depth operation).
Proof.
  intros w. unfold show_change.
  destruct (Change.pageIndex operation) as [p|]; [|reflexivity].
  destruct (instances w); [|reflexivity].
  revert w. refine (keeps_bind _ _ _ _); [apply keeps_scrollToPage|]. intros _.
  apply keeps_bind; [apply keeps_scrollToPage|]. intros _.
  apply keeps_highlightSelectedChange.
Qed.

End Frame.

(** X8.  An event of a view, whatever the side, the kind of the event
    and the answers of the engine, changes nothing of the rendered map,
    the selected index, the global index, the lookup of the annotation
    identifiers, the lock and the identifiers of the selection borders:
    a pass writes the views and the guard only. *)
Theorem view_events_keep_the_index depth s ev w :
  index_of (fst (handle_view_event depth s ev w)) = index_of w /\
  selectionAnnotationIdsRef (fst (handle_view_event depth s ev w))
    = selectionAnnotationIdsRef w.
Proof.
  pose proof (keeps_handle_view_event
                (fun x => (index_of x, selectionAnnotationIdsRef x))
                (fun _ _ => eq_refl) (fun _ _ _ => eq_refl) depth s ev w) as H.
  split; [exact (f_equal fst H) | exact (f_equal snd H)].
Qed.

Lemma show_change_keeps_index depth operation w :
  index_of (fst (show_change depth operation w)) = index_of w.
Proof.
  apply (keeps_show_change index_of (fun _ _ => eq_refl) (fun _ _ _ => eq_refl)
           (fun _ _ => eq_refl)).
Qed.

Lemma select_then_show depth index operation w :
  index_of (fst ((modify (setSelectedChangeIndex index) ;;;
                  show_change depth operation)%js w))
  = index_of (setSelectedChangeIndex index w).
Proof. unfold bind, modify. apply show_change_keeps_index. Qed.

Lemma select_entry_then_show depth index changesArray w :
  index_of (fst ((modify (setSelectedChangeIndex index) ;;;
                  operation <- entry_at changesArray index ;;
                  show_change depth operation)%js w))
  = index_of (setSelectedChangeIndex index w).
Proof.
  unfold bind, modify, entry_at.
  destruct (index <? 0); [reflexivity|].
  destruct (nth_error changesArray (Z.to_nat index)) as [[k operation]|]; [|reflexivity].
  apply show_change_keeps_index.
Qed.

(** X9.  [handlePreviousChange] moves the selected index one down when it
    is above 0 and [handleNextChange] one up when it is below the last
    index, and neither changes anything else of the rendered map, the
    global index, the lookup of the identifiers or the lock, also when
    the engine throws while the views are brought to the change; so a
    selected index that is inside the rendered map stays inside it. *)
Theorem navigation_moves_one_step depth w :
  let size := JsMap.size (operationsMap w) in
  let selected := selectedChangeIndex w in
  index_of (fst (handlePreviousChange depth w)) =
    index_of (setSelectedChangeIndex (if selected >? 0 then selected - 1 else selected) w) /\
  index_of (fst (handleNextChange depth w)) =
    index_of (setSelectedChangeIndex
                (if selected <? size - 1 then selected + 1 else selected) w) /\
  (0 <= selected < size ->
   0 <= selectedChangeIndex (fst (handlePreviousChange depth w)) < size /\
   0 <= selectedChangeIndex (fst (handleNextChange depth w)) < size).
Proof.
  cbv zeta.
  assert (Hprev : index_of (fst (handlePreviousChange depth w)) =
                  index_of (setSelectedChangeIndex
                              (if selectedChangeIndex w >? 0
                               then selectedChangeIndex w - 1
                               else selectedChangeIndex w) w)).
  { unfold handlePreviousChange. destruct (selectedChangeIndex w >? 0).
    - apply select_entry_then_show.
    - now destruct w. }
  assert (Hnext : index_of (fst (handleNextChange depth w)) =
                  index_of (setSelectedChangeIndex
                              (if selectedChangeIndex w <? JsMap.size (operationsMap w) - 1
                               then selectedChangeIndex w + 1
                               else selectedChangeIndex w) w)).
  { unfold handleNextChange, JsMap.size.
    destruct (selectedChangeIndex w <? Z.of_nat (List.length (operationsMap w)) - 1).
    - apply select_entry_then_show.
    - now destruct w. }
  split; [exact Hprev|]. split; [exact Hnext|].
  intros Hin.
  assert (Hp := f_equal (fun t => snd (fst (fst (fst (fst t))))) Hprev).
  assert (Hn := f_equal (fun t => snd (fst (fst (fst (fst t))))) Hnext).
  cbn in Hp, Hn. rewrite Hp, Hn.
  destruct (selectedChangeIndex w >? 0) eqn:E1;
    destruct (selectedChangeIndex w <? JsMap.size (operationsMap w) - 1) eqn:E2;
    try apply Z.gtb_lt in E1; try apply Z.ltb_lt in E2; lia.
Qed.

(** X9 on the component after the run with two changes, the first one
    selected. *)
Lemma navigation_moves_one_step_witness :
  0 <= selectedChangeIndex (fst (handlePreviousChange 3 compared_world)) < 2 /\
  0 <= selectedChangeIndex (fst (handleNextChange 3 compared_world)) < 2.
Proof.
  apply (proj2 (proj2 (navigation_moves_one_step 3 compared_world))).
  vm_compute. split; [discriminate | reflexivity].
Defined.

(* ================================================================== *)
(** * The lookup of the annotation identifiers *)
(* ================================================================== *)

Lemma set_all_get (ids : list string) (c : Z) (acc : Map Z) id :
  JsMap.get id (fold_left (fun m annotationId => JsMap.set annotationId c m) ids acc) =
  if existsb (String.eqb id) ids then Some c else JsMap.get id acc.
Proof.
  revert acc. induction ids as [|a ids IH]; intros acc; cbn [fold_left existsb];
    [reflexivity|].
  rewrite IH. destruct (existsb (String.eqb id) ids); [now rewrite orb_true_r|].
  rewrite orb_false_r. destruct (String.eqb_spec id a) as [->|Hne].
  - apply map_get_set_same.
  - apply map_get_set_other. congruence.
Qed.

Lemma annotationMap_count (ops : Map ChangeOperation) acc c :
  snd (fold_left
         (fun (acc : Map Z * Z) (entry : string * ChangeOperation) =>
            (fold_left (fun m annotationId => JsMap.set annotationId (snd acc) m)
               (ids_or_empty (Change.annotationIds (snd entry))) (fst acc),
             snd acc + 1))
         ops (acc, c))
  = c + Z.of_nat (List.length ops).
Proof.
  revert acc c. induction ops as [|x ops IH]; intros acc c; cbn [fold_left List.length].
  - cbn. lia.
  - rewrite IH. cbn [snd]. lia.
Qed.

(** The lookup after one more change: the identifiers of the new change
    point at it, the other identifiers point where they pointed. *)
Lemma build_annotationMap_snoc ops x id :
  JsMap.get id (build_annotationMap (ops ++ [x])) =
  if existsb (String.eqb id) (ids_or_empty (Change.annotationIds (snd x)))
  then Some (Z.of_nat (List.length ops))
  else JsMap.get id (build_annotationMap ops).
Proof.
  unfold build_annotationMap. rewrite fold_left_app.
  match goal with
  | |- context [fold_left ?step ops ?init] => set (r := fold_left step ops init)
  end.
  assert (Hc : snd r = 0 + Z.of_nat (List.length ops))
    by exact (annotationMap_count ops [] 0).
  clearbody r. cbn [fold_left fst]. rewrite set_all_get, Hc. reflexivity.
Qed.

Lemma existsb_eqb_In id (ids : list string) :
  existsb (String.eqb id) ids = true <-> In id ids.
Proof.
  rewrite existsb_exists. split.
  - intros (y & Hy & E). apply String.eqb_eq in E. now subst.
  - intros H. exists id. split; [exact H | apply String.eqb_refl].
Qed.

Lemma annotationMap_sound ops id i :
  JsMap.get id (build_annotationMap ops) = Some i ->
  exists n key e,
    i = Z.of_nat n /\ nth_error ops n = Some (key, e) /\
    In id (ids_or_empty (Change.annotationIds e)).
Proof.
  revert i. induction ops as [|x ops IH] using rev_ind; intros i.
  - discriminate.
  - rewrite build_annotationMap_snoc.
    destruct (existsb _ _) eqn:E.
    + intros H. injection H as <-. destruct x as [key e].
      exists (List.length ops), key, e. split; [reflexivity|].
      split; [now rewrite nth_error_app2, Nat.sub_diag by lia|].
      now apply existsb_eqb_In.
    + intros H. destruct (IH _ H) as (n & key & e & -> & Hn & Hin).
      exists n, key, e. split; [reflexivity|]. split; [|exact Hin].
      rewrite nth_error_app1; [exact Hn|]. apply nth_error_Some. congruence.
Qed.

Lemma annotationMap_last ops id n key e :
  nth_error ops n = Some (key, e) ->
  In id (ids_or_empty (Change.annotationIds e)) ->
  (forall m key' e', (n < m)%nat -> nth_error ops m = Some (key', e') ->
                     ~ In id (ids_or_empty (Change.annotationIds e'))) ->
  JsMap.get id (build_annotationMap ops) = Some (Z.of_nat n).
Proof.
  revert n key e. induction ops as [|x ops IH] using rev_ind; intros n key e Hn Hin Hlast.
  - destruct n; discriminate.
  - rewrite build_annotationMap_snoc.
    destruct (Nat.lt_ge_cases n (List.length ops)) as [Hlt|Hge].
    + rewrite nth_error_app1 in Hn by exact Hlt.
      destruct (existsb _ _) eqn:E.
      * exfalso. destruct x as [key' e']. apply existsb_eqb_In in E.
        apply (Hlast (List.length ops) key' e' Hlt); [|exact E].
        now rewrite nth_error_app2, Nat.sub_diag by lia.
      * apply (IH n key e Hn Hin). intros m key' e' Hm Hnth.
        apply (Hlast m key' e' Hm). rewrite nth_error_app1; [exact Hnth|].
        apply nth_error_Some. congruence.
    + rewrite nth_error_app2 in Hn by exact Hge.
      destruct (n - List.length ops)%nat as [|d] eqn:Ed; [|destruct d; discriminate].
      cbn in Hn. injection Hn as ->. cbn [snd].
      apply existsb_eqb_In in Hin. rewrite Hin.
      assert (En : n = List.length ops) by lia. now rewrite En.
Qed.

(** X10.  The lookup [compareDocuments] builds from an index sends an
    identifier only to the position of a change that records it, and it
    sends every identifier a change records to the position of the last
    change that records it (to the position of its change, when no later
    change records it too). *)
Theorem annotation_lookup_finds_the_change ops id :
  (forall i,
      JsMap.get id (build_annotationMap ops) = Some i ->
      exists n key e,
        i = Z.of_nat n /\ nth_error ops n = Some (key, e) /\
        In id (ids_or_empty (Change.annotationIds e))) /\
  (forall n key e,
      nth_error ops n = Some (key, e) ->
      In id (ids_or_empty (Change.annotationIds e)) ->
      (forall m key' e', (n < m)%nat -> nth_error ops m = Some (key', e') ->
                         ~ In id (ids_or_empty (Change.annotationIds e'))) ->
      JsMap.get id (build_annotationMap ops) = Some (Z.of_nat n)).
Proof.
  split.
  - intros i. apply annotationMap_sound.
  - intros n key e. apply annotationMap_last.
Qed.

(** X10 on the index of the run with two changes: the highlight of the
    second change points at position 1. *)
Lemma annotation_lookup_finds_the_change_witness :
  JsMap.get "d2"%string (build_annotationMap (operationsRef compared_world)) = Some 1.
Proof.
  refine (proj2 (annotation_lookup_finds_the_change (operationsRef compared_world)
                   "d2"%string) 1%nat _ _ eq_refl _ _).
  - left. reflexivity.
  - intros m key' e' Hm Hnth. destruct m as [|[|m]]; try lia.
    destruct m; discriminate Hnth.
Defined.

(** X11.  After a run of [compareDocuments] that returned, a click on an
    annotation no change records changes nothing, and a click on an
    annotation a change records selects the last change that records it,
    and changes nothing else of the rendered map, the global index, the
    lookup and the lock, whatever the engine then answers. *)
Theorem annotation_click_selects_its_change sdk w0 w depth id :
  compareDocuments (Some sdk) w0 = (w, Ok tt) ->
  ((forall n key e, nth_error (operationsRef w) n = Some (key, e) ->
                    ~ In id (ids_or_empty (Change.annotationIds e))) ->
   handleAnnotationClick depth id w = (w, Ok tt)) /\
  (forall n key e,
      nth_error (operationsRef w) n = Some (key, e) ->
      In id (ids_or_empty (Change.annotationIds e)) ->
      (forall m key' e', (n < m)%nat -> nth_error (operationsRef w) m = Some (key', e') ->
                         ~ In id (ids_or_empty (Change.annotationIds e'))) ->
      index_of (fst (handleAnnotationClick depth id w))
        = index_of (setSelectedChangeIndex (Z.of_nat n) w)).
Proof.
  intros Hrun. apply compareDocuments_ok in Hrun as (_ & _ & _ & Hmap & _).
  unfold handleAnnotationClick. rewrite Hmap. split.
  - intros Hnone.
    destruct (JsMap.get id (build_annotationMap (operationsRef w))) as [i|] eqn:Eg;
      [|reflexivity].
    apply annotationMap_sound in Eg as (n & key & e & _ & Hn & Hin).
    exfalso. exact (Hnone n key e Hn Hin).
  - intros n key e Hn Hin Hlast.
    rewrite (annotationMap_last _ _ _ _ _ Hn Hin Hlast).
    assert (Hlt : (n < List.length (operationsRef w))%nat)
      by (apply nth_error_Some; congruence).
    unfold JsMap.size.
    replace (0 <? Z.of_nat (List.length (operationsRef w))) with true
      by (symmetry; apply Z.ltb_lt; lia).
    replace (Z.of_nat n <? Z.of_nat (List.length (operationsRef w))) with true
      by (symmetry; apply Z.ltb_lt; lia).
    cbn [andb]. unfold bind at 1, entry_at.
    replace (Z.of_nat n <? 0) with false by (symmetry; apply Z.ltb_ge; lia).
    rewrite Nat2Z.id, Hn. unfold ret, handleChangeClick.
    apply select_then_show.
Qed.

(** X11 on the run with two changes: a click on the highlight of the
    second change selects it. *)
Lemma annotation_click_selects_its_change_witness :
  selectedChangeIndex (fst (handleAnnotationClick 3 "d2"%string compared_world)) = 1.
Proof.
  assert (H := proj2 (annotation_click_selects_its_change two_changes_run initial_world
                        compared_world 3 "d2"%string eq_refl)
                 1%nat _ _ eq_refl (or_introl eq_refl)).
  assert (Hlast : forall m key' e', (1 < m)%nat ->
            nth_error (operationsRef compared_world) m = Some (key', e') ->
            ~ In "d2"%string (ids_or_empty (Change.annotationIds e'))).
  { intros m key' e' Hm Hnth. destruct m as [|[|m]]; try lia.
    destruct m; discriminate Hnth. }
  exact (f_equal (fun t => snd (fst (fst (fst (fst t))))) (H Hlast)).
Defined.

(* ================================================================== *)
(** * Bringing a view to a page *)
(* ================================================================== *)










(* ================================================================== *)
(** * The pass and the view it starts from *)
(* ================================================================== *)

Lemma keeps_on_instance_gets {X A} (f : World -> X) s (g : Instance -> A) :
  keeps f (on_instance s (gets g)).
Proof.
  intros w. destruct (instances w) as [v|] eqn:Hv.
  - now rewrite (on_instance_gets _ _ _ _ Hv).
  - now rewrite (on_instance_unloaded _ _ _ Hv).
Qed.

Lemma keeps_view_on_other {A} s (m : M Instance A) :
  keeps (view_of s) (on_instance (other s) m).
Proof.
  intros w. unfold on_instance, on_viewers, focus, view_of.
  destruct (instances w) as [v|] eqn:Hv; [|cbn; now rewrite Hv].
  destruct (m (instance_of (other s) v)) as [i' res]. cbn.
  now rewrite instance_of_other_put.
Qed.

Lemma keeps_view_setViewState s vs :
  keeps (view_of s) (setViewState (fun _ x => x) (other s) vs).
Proof.
  unfold setViewState. apply keeps_bind; [apply keeps_on_instance_gets|]. intros i.
  destruct (setViewStateScript i) as [|[|] script].
  - apply keeps_bind; [apply keeps_view_on_other|]. intros _.
    apply keeps_bind; intros;
      match goal with |- keeps _ (if ?c then _ else _) => destruct c end;
      try apply keeps_ret; now apply keeps_modify.
  - apply keeps_bind; [apply keeps_view_on_other | intros; apply keeps_throw].
  - apply keeps_bind; [apply keeps_view_on_other|]. intros _.
    apply keeps_bind; intros;
      match goal with |- keeps _ (if ?c then _ else _) => destruct c end;
      try apply keeps_ret; now apply keeps_modify.
Qed.

Lemma keeps_view_sync_block s :
  keeps (view_of s) (sync_block (fun _ x => x) s).
Proof.
  unfold sync_block. apply keeps_bind; [apply keeps_on_instance_gets|]. intros svs.
  apply keeps_bind; [apply keeps_on_instance_gets|]. intros tvs.
  apply keeps_bind.
  - destruct (negb _); [apply keeps_view_setViewState | apply keeps_ret].
  - intros _. destruct (negb _); [apply keeps_view_setViewState|].
    apply keeps_bind; [apply keeps_on_instance_gets|]. intros src.
    apply keeps_bind; [apply keeps_on_instance_gets|]. intros tgt.
    destruct src, tgt; try apply keeps_ret. apply keeps_view_on_other.
Qed.

(** X14.  A pass never writes the view it starts from: after an event of
    a view, that view is as it was (its view state, its scroll offsets,
    its annotations), whether the lock is on or off, whether the engine
    accepts or throws, and however deep the engine re-enters the
    listeners. *)
Theorem pass_never_writes_its_source depth s ev w :
  view_of s (fst (handle_view_event depth s ev w)) = view_of s w.
Proof.
  replace (handle_view_event depth s ev) with (sync_from (listener depth) s)
    by now destruct s.
  destruct (isScrollLockedRef w) eqn:Hl.
  2:{ now rewrite sync_from_unlocked. }
  destruct (isSyncingRef w) eqn:Hg.
  { unfold sync_from. now rewrite Hl, Hg. }
  destruct (sync_from_guarded (listener depth) (listener_ignored_while_syncing depth)
              s w Hl Hg) as [-> _].
  unfold sync_from, try_finally. rewrite Hl, Hg. cbn [negb orb].
  pose proof (keeps_view_sync_block s (set_isSyncingRef true (GuardSet s) w)) as H.
  destruct (sync_block _ s _) as [w1 r]. cbn [fst] in *.
  unfold view_of in *. cbn in *. exact H.
Qed.

(* ================================================================== *)
(** * Redrawing the selection border *)
(* ================================================================== *)

Lemma views_keep_refl ids v : views_keep ids v v.
Proof. intros side. auto. Qed.

Lemma views_keep_trans ids v v1 v2 :
  views_keep ids v v1 -> views_keep ids v1 v2 -> views_keep ids v v2.
Proof.
  intros H1 H2 side. destruct (H1 side) as (Ha & Hb & Hc).
  destruct (H2 side) as (Ha' & Hb' & Hc').
  repeat split; try congruence. auto.
Qed.

Section KeepsViews.

Variable ids : list string.

Lemma keeps_views_ret {A} (a : A) : keeps_views ids (ret a).
Proof. intros w v Hv. exists v. split; [exact Hv | apply views_keep_refl]. Qed.

Lemma keeps_views_throw {A} e : keeps_views ids (@throw World A e).
Proof. intros w v Hv. exists v. split; [exact Hv | apply views_keep_refl]. Qed.

Lemma keeps_views_bind {A B} (m : M World A) (k : A -> M World B) :
  keeps_views ids m -> (forall a, keeps_views ids (k a)) -> keeps_views ids (bind m k).
Proof.
  intros Hm Hk w v Hv. unfold bind. destruct (Hm w v Hv) as (v1 & Hv1 & H1).
  destruct (m w) as [w1 [a|e]]; cbn [fst] in *.
  - destruct (Hk a w1 v1 Hv1) as (v2 & Hv2 & H2).
    exists v2. split; [exact Hv2 | exact (views_keep_trans _ _ _ _ H1 H2)].
  - exists v1. auto.
Qed.

Lemma keeps_views_try_catch {A} (m h : M World A) :
  keeps_views ids m -> keeps_views ids h -> keeps_views ids (try_catch m h).
Proof.
  intros Hm Hh w v Hv. unfold try_catch. destruct (Hm w v Hv) as (v1 & Hv1 & H1).
  destruct (m w) as [w1 [a|e]]; cbn [fst] in *.
  - exists v1. auto.
  - destruct (Hh w1 v1 Hv1) as (v2 & Hv2 & H2).
    exists v2. split; [exact Hv2 | exact (views_keep_trans _ _ _ _ H1 H2)].
Qed.

Lemma keeps_views_modify (g : World -> World) :
  (forall w, instances (g w) = instances w) -> keeps_views ids (modify g).
Proof.
  intros Hg w v Hv. exists v. cbn. rewrite Hg. split; [exact Hv | apply views_keep_refl].
Qed.

(** A step on one view that keeps the view state, the scroll element and
    the annotations outside [ids]. *)
Lemma keeps_views_on_instance {A} s (m : M Instance A) :
  (forall i,
      viewState (fst (m i)) = viewState i /\
      scrollElement (fst (m i)) = scrollElement i /\
      forall a, In a (annotations i) -> ~ In (fst a) ids ->
                In a (annotations (fst (m i)))) ->
  keeps_views ids (on_instance s m).
Proof.
  intros Hm w v Hv. unfold on_instance, on_viewers, focus. rewrite Hv.
  specialize (Hm (instance_of s v)).
  destruct (m (instance_of s v)) as [i' res]. cbn [fst] in *.
  exists (put_instance s i' v). split; [reflexivity|].
  intros side. destruct s, side; cbn; auto.
Qed.

Lemma keeps_views_delete s id :
  In id ids -> keeps_views ids (on_instance s (delete_annotation id)).
Proof.
  intros Hid. apply keeps_views_on_instance. intros i. unfold delete_annotation.
  destruct (existsb _ (annotations i)); cbn; repeat split; auto.
  intros a Ha Hnot. apply filter_In. split; [exact Ha|].
  apply negb_true_iff. apply String.eqb_neq. intros E. apply Hnot. now rewrite E.
Qed.

Lemma keeps_views_create s annotation :
  keeps_views ids (on_instance s (create annotation)).
Proof.
  apply keeps_views_on_instance. intros i. unfold create.
  destruct (createScript i) as [|[created|] script]; cbn; repeat split; auto.
  intros a Ha _. apply in_or_app. now left.
Qed.

Lemma keeps_views_add_border s flag rect p : keeps_views ids (add_border s flag rect p).
Proof.
  unfold add_border. destruct (is_true flag), rect, p; try apply keeps_views_ret.
  apply keeps_views_bind; [apply keeps_views_create|]. intros created.
  destruct created; [apply keeps_views_ret|]. now apply keeps_views_modify.
Qed.

Lemma keeps_views_clear (selection : list string) :
  (forall id, In id selection -> In id ids) ->
  keeps_views ids
    (for_each selection
       (fun annotationId (_ : unit) =>
          try_catch (on_instance Original (delete_annotation annotationId))
            (try_catch (on_instance Changed (delete_annotation annotationId)) (ret tt)))
       tt).
Proof.
  induction selection as [|id selection IH]; intros Hin; cbn [for_each].
  - apply keeps_views_ret.
  - apply keeps_views_bind.
    + assert (Hid : In id ids) by (apply Hin; now left).
      repeat apply keeps_views_try_catch; try now apply keeps_views_delete.
      apply keeps_views_ret.
    + intros []. apply IH. intros x Hx. apply Hin. now right.
Qed.

End KeepsViews.

(** The loop that removes the borders of the previous selection never
    throws. *)
Lemma clear_never_throws (selection : list string) w :
  snd (for_each selection
         (fun annotationId (_ : unit) =>
            try_catch (on_instance Original (delete_annotation annotationId))
              (try_catch (on_instance Changed (delete_annotation annotationId)) (ret tt)))
         tt w) = Ok tt.
Proof.
  revert w. induction selection as [|id selection IH]; intros w; cbn [for_each];
    [reflexivity|].
  unfold bind, try_catch at 1.
  destruct (on_instance Original (delete_annotation id) w) as [w1 [[]|e]].
  - apply IH.
  - unfold try_catch.
    destruct (on_instance Changed (delete_annotation id) w1) as [w2 [[]|e']]; apply IH.
Qed.

Lemma add_border_selection s flag rect p w :
  (List.length (selectionAnnotationIdsRef (fst (add_border s flag rect p w)))
   <= S (List.length (selectionAnnotationIdsRef w)))%nat.
Proof.
  unfold add_border. destruct (is_true flag), rect, p; cbn; try lia.
  unfold bind.
  destruct (on_viewers_keeps_but_instances
              (focus (instance_of s) (put_instance s)
                 (create (RectangleAnnotation z (expand r) borderColor 2 None))) w)
    as [o Ho].
  fold (on_instance s (create (RectangleAnnotation z (expand r) borderColor 2 None))) in Ho.
  destruct (on_instance s _ w) as [w1 [created|e]]; cbn [fst] in *; subst w1.
  - destruct created; cbn; [lia|]. rewrite length_app. cbn. lia.
  - cbn. lia.
Qed.

(** X15.  Redrawing the selection border never removes a highlight: on
    loaded views, after [highlightSelectedChange], every annotation whose
    identifier is not one of the previous selection's is still in its
    view, and the view states and the scroll elements are what they
    were; the loop that removes the previous borders tolerates the
    identifiers neither view holds, so only the creation of a border can
    throw; the identifiers of the new selection are at most two; and the
    rendered map, the selected index, the global index, the lookup and
    the lock are not touched. *)
Theorem selection_redraw_keeps_highlights operation w v :
  instances w = Some v ->
  let w' := fst (highlightSelectedChange operation w) in
  (exists v', instances w' = Some v' /\ views_keep (selectionAnnotationIdsRef w) v v') /\
  (List.length (selectionAnnotationIdsRef w') <= 2)%nat /\
  snd (highlightSelectedChange operation w) <> Throw NotFound /\
  index_of w' = index_of w.
Proof.
  intros Hv. cbv zeta. split; [|split; [|split]].
  - unfold highlightSelectedChange. rewrite Hv.
    refine (keeps_views_bind _ _ _ _ _ w v Hv).
    + apply keeps_views_clear. auto.
    + intros _. apply keeps_views_bind; [now apply keeps_views_modify|]. intros _.
      apply keeps_views_bind; intros; apply keeps_views_add_border.
  - unfold highlightSelectedChange. rewrite Hv. unfold bind at 1.
    pose proof (clear_never_throws (selectionAnnotationIdsRef w) w) as Hclear.
    destruct (for_each _ _ tt w) as [w1 r]. cbn [snd] in Hclear. subst r.
    unfold bind at 1, modify.
    set (w2 := set_selectionAnnotationIdsRef [] w1).
    unfold bind.
    pose proof (add_border_selection Original (Change.del operation)
                  (Change.originalRect operation) (Change.pageIndex operation) w2) as H3.
    destruct (add_border Original _ _ _ w2) as [w3 [[]|e]]; cbn [fst] in *.
    + pose proof (add_border_selection Changed (Change.insert operation)
                    (Change.changedRect operation) (Change.pageIndex operation) w3) as H4.
      cbn in H3. lia.
    + cbn in H3. lia.
  - unfold highlightSelectedChange. rewrite Hv. unfold bind at 1.
    pose proof (clear_never_throws (selectionAnnotationIdsRef w) w) as Hclear.
    destruct (for_each _ _ tt w) as [w1 r]. cbn [snd] in Hclear. subst r.
    unfold bind, modify, add_border.
    destruct (is_true (Change.del operation)), (Change.originalRect operation),
      (Change.pageIndex operation);
      destruct (is_true (Change.insert operation)), (Change.changedRect operation);
      unfold ret, bind, on_instance, on_viewers, focus, create; cbn;
      repeat match goal with
             | |- context [match instances ?x with _ => _ end] => destruct (instances x)
             | |- context [match createScript ?x with _ => _ end] =>
                 destruct (createScript x) as [|[[|? ?]|] ?]
             | |- _ => progress cbn
             end; discriminate.
  - apply (keeps_highlightSelectedChange index_of (fun _ _ => eq_refl)
             (fun _ _ => eq_refl)).
Qed.

(** X15 on the component after the run with two changes, with a border
    of the previous selection on record: the two highlights stay. *)
Lemma selection_redraw_keeps_highlights_witness :
  exists v',
    instances (fst (highlightSelectedChange second_delete_on_page_1
                      (set_selectionAnnotationIdsRef ["border"%string] compared_world)))
      = Some v' /\
    In "d1"%string (map fst (annotations (originalInstance v'))) /\
    In "d2"%string (map fst (annotations (originalInstance v'))).
Proof.
  destruct (instances compared_world) as [v|] eqn:Hv; [|discriminate Hv].
  destruct (proj1 (selection_redraw_keeps_highlights second_delete_on_page_1
                     (set_selectionAnnotationIdsRef ["border"%string] compared_world)
                     v Hv)) as (v' & Hv' & Hkeep).
  exists v'. split; [exact Hv'|].
  destruct (Hkeep Original) as (_ & _ & Hann).
  vm_compute in Hv. injection Hv as <-. cbn [instance_of originalInstance] in Hann.
  split.
  - apply (in_map fst) with (x := ("d1"%string, highlight 0 (Geometry.mkRect (px 10) (px 20)
                                                    (px 50) (px 12)) deleteHighlightColor)).
    apply Hann; [now left|].
    cbn. intros [H|[]]. discriminate H.
  - apply (in_map fst) with
      (x := ("d2"%string, highlight 1 (Geometry.mkRect (JsNum.Dec 105 1) (JsNum.Dec 2025 2)
                                         (px 50) (px 12)) deleteHighlightColor)).
    apply Hann; [right; now left|].
    cbn. intros [H|[]]. discriminate H.
Defined.

(* ================================================================== *)
(** * The listener of the earlier page *)
(* ================================================================== *)

(** X16.  The listener of the earlier page, on an engine that accepts:
    the original view gets the zoom of the changed view and, when it has
    a scroll element, the scroll offsets of the changed view (0 for an
    offset that is absent), but it does not get the page: the second
    [setViewState] is built from the view state read before the first
    one, so the page of the original view ends as it was.  The changed
    view and the annotations of both views are not touched. *)
Theorem legacy_sync_keeps_the_original_page w v :
  instances w = Some v ->
  Forall (fun refuses => refuses = false) (setViewStateScript (originalInstance v)) ->
  exists v',
    Legacy.syncViewState w = (set_instances (Some v') w, Ok tt) /\
    changedInstance v' = changedInstance v /\
    annotations (originalInstance v') = annotations (originalInstance v) /\
    zoom (viewState (originalInstance v')) = zoom (viewState (changedInstance v)) /\
    currentPageIndex (viewState (originalInstance v')) =
      currentPageIndex (viewState (originalInstance v)) /\
    scrollElement (originalInstance v') =
      match scrollElement (originalInstance v) with
      | Some _ =>
          Some (mkScroll
                  (Legacy.or_zero (option_map scrollTop (scrollElement (changedInstance v))))
                  (Legacy.or_zero (option_map scrollLeft (scrollElement (changedInstance v)))))
      | None => None
      end.
Proof.
  intros Hv Hacc. unfold Legacy.syncViewState, bind.
  rewrite !(on_instance_gets _ _ _ _ Hv).
  rewrite (setViewState_accepted Original _ _ _ Hv Hacc).
  set (v1 := put_instance Original _ v). set (w1 := set_instances (Some v1) w).
  assert (Hv1 : instances w1 = Some v1) by reflexivity.
  assert (Hacc1 : Forall (fun refuses => refuses = false)
                    (setViewStateScript (instance_of Original v1))).
  { cbn. now apply Forall_tail. }
  rewrite (setViewState_accepted Original _ _ _ Hv1 Hacc1).
  set (v2 := put_instance Original _ v1). set (w2 := set_instances (Some v2) w1).
  assert (Hv2 : instances w2 = Some v2) by reflexivity.
  rewrite (on_instance_gets _ _ _ _ Hv2). cbn [instance_of v2 v1 put_instance originalInstance
    changedInstance scrollElement with_viewState with_setViewStateScript].
  destruct (scrollElement (originalInstance v)) as [e|] eqn:He.
  - rewrite (on_instance_modify _ _ _ _ Hv2). eexists. split; [reflexivity|].
    cbn. rewrite ?He. repeat split.
  - unfold ret. exists v2. split; [reflexivity|]. cbn. rewrite ?He. repeat split.
Qed.

(** X16 on the sample views, the changed view on page 1 at zoom 1.5 and
    scrolled to 900, the original view on page 0: the original view gets
    the zoom and the offset, and stays on page 0. *)
Lemma legacy_sync_keeps_the_original_page_witness :
  exists v',
    instances (fst (Legacy.syncViewState moved_world)) = Some v' /\
    zoom (viewState (originalInstance v')) = ZoomNumber (JsNum.Dec 15 1) /\
    currentPageIndex (viewState (originalInstance v')) = 0 /\
    scrollElement (originalInstance v') = Some (mkScroll (px 900) (px 0)).
Proof.
  destruct (legacy_sync_keeps_the_original_page moved_world
              (mkViewers (view 0 (px 1) 120 []) (view 1 (JsNum.Dec 15 1) 900 []))
              eq_refl (Forall_nil _))
    as (v' & Hrun & _ & _ & Hzoom & Hpage & Hscroll).
  exists v'. rewrite Hrun. split; [reflexivity|].
  split; [exact Hzoom|]. split; [exact Hpage | exact Hscroll].
Defined.

(* ================================================================== *)
(** * The sidebar *)
(* ================================================================== *)

Lemma NumMap_get_set_same {V} k (v : V) m : NumMap.get k (NumMap.set k v m) = Some v.
Proof.
  induction m as [|[k' v'] m IH]; cbn; [now rewrite Z.eqb_refl|].
  destruct (k' =? k) eqn:E; cbn; [now rewrite Z.eqb_refl | now rewrite E].
Qed.

Lemma NumMap_get_set_other {V} k k' (v : V) m :
  k <> k' -> NumMap.get k' (NumMap.set k v m) = NumMap.get k' m.
Proof.
  intros Hk. induction m as [|[q v'] m IH]; cbn.
  - destruct (k =? k') eqn:E; [apply Z.eqb_eq in E; contradiction | reflexivity].
  - destruct (q =? k) eqn:E; cbn.
    + apply Z.eqb_eq in E. subst q.
      destruct (k =? k') eqn:E'; [apply Z.eqb_eq in E'; contradiction | reflexivity].
    + now rewrite IH.
Qed.

Lemma NumMap_in_keys {V} k (m : list (Z * V)) :
  In k (NumMap.keys m) <-> NumMap.get k m <> None.
Proof.
  induction m as [|[q v] m IH]; cbn; [tauto|].
  destruct (q =? k) eqn:E.
  - apply Z.eqb_eq in E. split; [discriminate | now left].
  - apply Z.eqb_neq in E. rewrite <- IH. tauto.
Qed.

Lemma NumMap_keys_set {V} k (v : V) m :
  NumMap.keys (NumMap.set k v m) =
    if NumMap.has k m then NumMap.keys m else (NumMap.keys m ++ [k])%list.
Proof.
  unfold NumMap.has, NumMap.keys. induction m as [|[q v'] m IH]; cbn; [reflexivity|].
  destruct (q =? k) eqn:E; cbn.
  - apply Z.eqb_eq in E. now subst.
  - rewrite IH. now destruct (NumMap.get k m).
Qed.

Lemma NumMap_set_NoDup {V} k (v : V) m :
  NoDup (NumMap.keys m) -> NoDup (NumMap.keys (NumMap.set k v m)).
Proof.
  intros H. rewrite NumMap_keys_set. unfold NumMap.has.
  destruct (NumMap.get k m) eqn:E; [exact H|].
  apply NoDup_app; [exact H | repeat constructor; now intros [] |].
  intros x Hx [<-|[]]. apply NumMap_in_keys in Hx. contradiction.
Qed.

(** One turn of the loop that groups the rows: the row goes to the end of
    the group of its page, and no other group changes. *)
Lemma group_step_get G item p :
  NumMap.get p (group_step G item) =
    if item_page item =? p
    then Some (match NumMap.get p G with Some rows => rows | None => [] end ++ [item])%list
    else NumMap.get p G.
Proof.
  unfold group_step, NumMap.has.
  destruct (item_page item =? p) eqn:E.
  - apply Z.eqb_eq in E. subst p.
    destruct (NumMap.get (item_page item) G) as [rows|] eqn:Eg.
    + rewrite Eg. apply NumMap_get_set_same.
    + rewrite NumMap_get_set_same. cbn. apply NumMap_get_set_same.
  - apply Z.eqb_neq in E.
    destruct (NumMap.get (item_page item) G) as [rows|] eqn:Eg.
    + rewrite Eg. now apply NumMap_get_set_other.
    + rewrite NumMap_get_set_same. now rewrite !NumMap_get_set_other by exact E.
Qed.

Lemma group_step_NoDup G item :
  NoDup (NumMap.keys G) -> NoDup (NumMap.keys (group_step G item)).
Proof.
  intros H. unfold group_step, NumMap.has.
  destruct (NumMap.get (item_page item) G) as [rows|] eqn:Eg.
  - rewrite Eg. now apply NumMap_set_NoDup.
  - rewrite NumMap_get_set_same. now do 2 apply NumMap_set_NoDup.
Qed.

Lemma fold_group_get items G p :
  NumMap.get p (fold_left group_step items G) =
    match NumMap.get p G with
    | Some rows => Some (rows ++ filter (fun it => item_page it =? p) items)%list
    | None =>
        match filter (fun it => item_page it =? p) items with
        | [] => None
        | rows => Some rows
        end
    end.
Proof.
  revert G. induction items as [|item items IH]; intros G; cbn [fold_left filter].
  - destruct (NumMap.get p G); [now rewrite app_nil_r | reflexivity].
  - rewrite IH, group_step_get. destruct (item_page item =? p).
    + destruct (NumMap.get p G); cbn; now rewrite <- ?app_assoc.
    + reflexivity.
Qed.

Lemma fold_group_NoDup items G :
  NoDup (NumMap.keys G) -> NoDup (NumMap.keys (fold_left group_step items G)).
Proof.
  revert G. induction items as [|item items IH]; intros G H; cbn [fold_left];
    [exact H|]. now apply IH, group_step_NoDup.
Qed.

Lemma insert_page_In x p l : In x (insert_page p l) <-> x = p \/ In x l.
Proof.
  induction l as [|q l IH]; cbn; [intuition|].
  destruct (p <=? q); cbn; [intuition | rewrite IH; intuition].
Qed.

Lemma sort_pages_In x l : In x (sort_pages l) <-> In x l.
Proof.
  unfold sort_pages. induction l as [|q l IH]; cbn; [tauto|].
  rewrite insert_page_In, IH. intuition.
Qed.

Lemma insert_page_sorted p l :
  StronglySorted Z.lt l -> ~ In p l -> StronglySorted Z.lt (insert_page p l).
Proof.
  induction l as [|q l IH]; intros Hs Hp; cbn.
  - repeat constructor.
  - inversion Hs as [|? ? Hl Hq]; subst.
    destruct (p <=? q) eqn:E.
    + apply Z.leb_le in E. assert (p < q) by (cbn in Hp; lia).
      constructor; [exact Hs|]. constructor; [assumption|].
      rewrite Forall_forall in *. intros x Hx. specialize (Hq x Hx). lia.
    + apply Z.leb_gt in E. constructor.
      * apply IH; [assumption | cbn in Hp; tauto].
      * rewrite Forall_forall in *. intros x Hx. apply insert_page_In in Hx.
        destruct Hx as [->|Hx]; [assumption | now apply Hq].
Qed.

Lemma sort_pages_sorted l : NoDup l -> StronglySorted Z.lt (sort_pages l).
Proof.
  unfold sort_pages. induction 1 as [|q l Hq Hl IH]; cbn; [constructor|].
  apply insert_page_sorted; [exact IH|]. fold (sort_pages l). now rewrite sort_pages_In.
Qed.

Lemma sorted_pages_NoDup l : StronglySorted Z.lt l -> NoDup l.
Proof.
  induction 1 as [|q l Hl IH Hq]; constructor; [|exact IH].
  intros Hin. rewrite Forall_forall in Hq. specialize (Hq q Hin). lia.
Qed.

Lemma rows_of_pages_cons (item : SidebarItem) items pages :
  NoDup pages -> In (item_page item) pages ->
  Permutation
    (List.concat (map (fun p => filter (fun it => item_page it =? p) (item :: items)) pages))
    (item :: List.concat (map (fun p => filter (fun it => item_page it =? p) items) pages)).
Proof.
  induction pages as [|q pages IH]; intros Hnd Hin; [destruct Hin|].
  inversion Hnd as [|? ? Hq Hnd']; subst. cbn [map List.concat].
  assert (Hhead : filter (fun it => item_page it =? q) (item :: items) =
                  if item_page item =? q
                  then item :: filter (fun it => item_page it =? q) items
                  else filter (fun it => item_page it =? q) items) by reflexivity.
  rewrite Hhead. clear Hhead.
  destruct (item_page item =? q) eqn:E.
  - apply Z.eqb_eq in E. subst q. cbn [app]. constructor.
    apply Permutation_app_head.
    assert (Hsame : map (fun p => filter (fun it => item_page it =? p) (item :: items)) pages
                    = map (fun p => filter (fun it => item_page it =? p) items) pages).
    { apply map_ext_in. intros p Hp. cbn.
      destruct (item_page item =? p) eqn:E'; [|reflexivity].
      apply Z.eqb_eq in E'. subst p. contradiction. }
    now rewrite Hsame.
  - apply Z.eqb_neq in E. destruct Hin as [Hin|Hin]; [congruence|].
    rewrite (IH Hnd' Hin). apply Permutation_sym, Permutation_middle.
Qed.

Lemma rows_of_pages (items : list SidebarItem) pages :
  NoDup pages -> (forall it, In it items -> In (item_page it) pages) ->
  Permutation
    (List.concat (map (fun p => filter (fun it => item_page it =? p) items) pages)) items.
Proof.
  intros Hnd. induction items as [|item items IH]; intros Hall.
  - cbn. induction pages as [|q pages IHp]; cbn; [constructor|].
    inversion Hnd; subst. now apply IHp.
  - rewrite rows_of_pages_cons by (try assumption; apply Hall; now left).
    constructor. apply IH. intros it Hit. apply Hall. now right.
Qed.

Lemma filter_nonempty_In {A} (f : A -> bool) l x : In x l -> f x = true -> filter f l <> [].
Proof.
  intros Hx Hf E. assert (H : In x (filter f l)) by (apply filter_In; auto).
  rewrite E in H. destruct H.
Qed.

(** The groups are the pages that hold a row, each with its rows. *)
Lemma sidebar_groups_rows m :
  sidebar_groups m =
    map (fun p => (p, filter (fun it => item_page it =? p) (indexed_entries m)))
      (sort_pages (NumMap.keys (changesByPage m))).
Proof.
  unfold sidebar_groups.
  assert (H : forall p, In p (sort_pages (NumMap.keys (changesByPage m))) ->
                        NumMap.get p (changesByPage m) =
                          Some (filter (fun it => item_page it =? p) (indexed_entries m))).
  { intros p Hp. apply sort_pages_In, NumMap_in_keys in Hp. revert Hp.
    unfold changesByPage. rewrite fold_group_get. cbn.
    destruct (filter _ (indexed_entries m)); congruence. }
  induction (sort_pages (NumMap.keys (changesByPage m))) as [|p pages IH]; cbn;
    [reflexivity|].
  rewrite (H p (or_introl eq_refl)). cbn. f_equal. apply IH.
  intros q Hq. apply H. now right.
Qed.

(** X17.  The sidebar shows every change once: its groups come in
    ascending order of the page, no page twice; the group of a page is
    not empty and holds the changes of that page ([pageIndex ?? 0]) in
    the order of the index; every change is in the group of its page;
    and the rows of all groups together are the entries of the index,
    each with its position. *)
Theorem sidebar_groups_partition m :
  StronglySorted Z.lt (map fst (sidebar_groups m)) /\
  (forall p rows,
      In (p, rows) (sidebar_groups m) ->
      rows <> [] /\
      rows = filter (fun it => item_page it =? p) (indexed_entries m)) /\
  (forall it,
      In it (indexed_entries m) -> exists rows, In (item_page it, rows) (sidebar_groups m)) /\
  Permutation (List.concat (map snd (sidebar_groups m))) (indexed_entries m).
Proof.
  rewrite sidebar_groups_rows.
  assert (Hnd : NoDup (NumMap.keys (changesByPage m))).
  { unfold changesByPage. apply fold_group_NoDup. constructor. }
  assert (Hkeys : forall p,
             In p (sort_pages (NumMap.keys (changesByPage m))) <->
             filter (fun it => item_page it =? p) (indexed_entries m) <> []).
  { intros p. rewrite sort_pages_In, NumMap_in_keys. unfold changesByPage.
    rewrite fold_group_get. cbn. destruct (filter _ (indexed_entries m)); split; congruence. }
  pose proof (sort_pages_sorted _ Hnd) as Hsorted.
  split; [|split; [|split]].
  - rewrite map_map. cbn. now rewrite map_id.
  - intros p rows Hin. apply in_map_iff in Hin as (q & E & Hq).
    inversion E; subst. split; [now apply Hkeys | reflexivity].
  - intros it Hit. eexists. apply in_map_iff. exists (item_page it). split; [reflexivity|].
    apply Hkeys. apply (filter_nonempty_In _ _ it Hit). apply Z.eqb_refl.
  - rewrite map_map. cbn. apply rows_of_pages.
    + now apply sorted_pages_NoDup.
    + intros it Hit. apply Hkeys. apply (filter_nonempty_In _ _ it Hit). apply Z.eqb_refl.
Qed.

(* ================================================================== *)
(** * The changes a run publishes, and their rows *)
(* ================================================================== *)

Lemma map_set_In {V} k k' (v e : V) m :
  In (k, e) (JsMap.set k' v m) -> (k, e) = (k', v) \/ In (k, e) m.
Proof.
  induction m as [|[q x] m IH]; cbn.
  - intros [E|[]]. now left.
  - destruct (String.eqb q k'); cbn; intuition (auto; congruence).
Qed.

Lemma fold_entries_In {V} k (e : V) (l acc : list (string * V)) :
  In (k, e) (fold_left JsMap.put_entry l acc) -> In (k, e) l \/ In (k, e) acc.
Proof.
  revert acc. induction l as [|[k' v] l IH]; intros acc H; cbn in *; [tauto|].
  destruct (IH _ H) as [Hl|Hacc]; [tauto|].
  unfold JsMap.put_entry in Hacc. cbn in Hacc.
  destruct (map_set_In _ _ _ _ _ Hacc) as [E|Hin]; [left; left; now inversion E | tauto].
Qed.

Lemma map_In_get {V} k (e : V) m :
  NoDup (JsMap.keys m) -> In (k, e) m -> JsMap.get k m = Some e.
Proof.
  unfold JsMap.keys. induction m as [|[q x] m IH]; cbn; intros Hnd Hin; [destruct Hin|].
  inversion Hnd as [|? ? Hq Hnd']; subst.
  destruct Hin as [E|Hin].
  - inversion E; subst. now rewrite String.eqb_refl.
  - destruct (String.eqb q k) eqn:Eq.
    + apply String.eqb_eq in Eq. subst q. exfalso. apply Hq.
      apply in_map_iff. now exists (k, e).
    + now apply IH.
Qed.

Lemma page_loop_entries pageIndex pages w :
  (forall k e, In (k, e) (operationsRef w) -> exists p, entry_of_page p e) ->
  forall k e, In (k, e) (operationsRef (fst (page_loop pageIndex pages w))) ->
              exists p, entry_of_page p e.
Proof.
  revert pageIndex w. induction pages as [|c rest IH]; intros pageIndex w Hw;
    cbn [page_loop]; [exact Hw|].
  unfold bind at 1, on_viewers.
  destruct (instances w) as [v|]; [|exact Hw].
  destruct (process_comparison pageIndex c v) as [v1 [changes|e]] eqn:Ep; [|exact Hw].
  unfold bind, modify. apply IH. cbn. intros k e Hin.
  unfold merge_changes, JsMap.of_entries in Hin.
  apply fold_entries_In in Hin as [Hin|[]].
  apply in_app_or in Hin as [Hin|Hin]; [now apply (Hw k) |].
  exists pageIndex.
  destruct (process_comparison_page_map _ _ _ _ _ Ep) as [Hnd Hall].
  apply (Hall k). now apply map_In_get.
Qed.

(** X18.  Every change a run of [compareDocuments] publishes is well
    formed when the changes of the index it started from were: it
    carries the index of a page, has the flag of a side set exactly when
    the text and the rectangle of that side are recorded, has at least
    one flag set, and lists only identifiers that are not empty. *)
Theorem published_changes_are_well_formed sdk w w' :
  compareDocuments (Some sdk) w = (w', Ok tt) ->
  (forall k e, In (k, e) (operationsRef w) -> exists p, entry_of_page p e) ->
  forall k e, In (k, e) (operationsMap w') -> exists p, entry_of_page p e.
Proof.
  intros Hrun Hw k e Hin.
  unfold compareDocuments, bind, modify in Hrun.
  set (w0 := set_instances (Some (mkViewers (loadOriginal sdk) (loadChanged sdk))) w) in *.
  pose proof (page_loop_entries 0 (pageComparisons sdk) w0 Hw) as Hloop.
  destruct (page_loop 0 (pageComparisons sdk) w0) as [w1 [[]|x]]; [|discriminate].
  cbn [fst] in Hloop. inversion Hrun; subst w'. clear Hrun.
  cbn in Hin. unfold JsMap.of_entries in Hin.
  apply fold_entries_In in Hin as [Hin|[]]. now apply (Hloop k).
Qed.

(** X18 on the run with one change on each of two pages, at the change
    of page 0. *)
Lemma published_changes_are_well_formed_witness :
  exists p,
    entry_of_page p
      (Change.mk (Some "first"%string) None (Some true) None (Some 0)
         (Some (Geometry.mkRect (px 10) (px 20) (px 50) (px 12))) None
         (Some ["d1"%string])).
Proof.
  apply (published_changes_are_well_formed two_changes_run initial_world compared_world
           eq_refl (fun k e (H : In (k, e) []) => match H with end) "10,20"%string).
  vm_compute. now left.
Defined.

Lemma count_guard text :
  (if text_truthy text then countWords text else 0) = countWords text.
Proof.
  destruct text as [s|]; [|reflexivity]. cbn. now destruct (JsString.truthy s).
Qed.

(** X19.  The row of a well-formed change shows what the change
    records: "replaced" with both counts when both texts are recorded,
    "inserted" with the count of the inserted text when no deleted text
    is, and "deleted" with the count of the deleted text when no inserted
    text is; the last branch, which tests no flag, is reached only by a
    change whose delete flag is set; and each count is [countWords] of
    the text of its side. *)
Theorem row_shows_what_is_recorded p e :
  entry_of_page p e ->
  match plusMinusDisplayText e with
  | BadgeBoth deleteCount insertCount =>
      change_label e = "replaced"%string /\
      Change.del e = Some true /\ Change.insert e = Some true /\
      Change.deleteText e <> None /\ Change.insertText e <> None /\
      deleteCount = countWords (Change.deleteText e) /\
      insertCount = countWords (Change.insertText e)
  | BadgeInsert insertCount =>
      change_label e = "inserted"%string /\
      Change.del e = None /\ Change.insert e = Some true /\
      Change.deleteText e = None /\ Change.insertText e <> None /\
      insertCount = countWords (Change.insertText e)
  | BadgeDelete deleteCount =>
      change_label e = "deleted"%string /\
      Change.del e = Some true /\ Change.insert e = None /\
      Change.deleteText e <> None /\ Change.insertText e = None /\
      deleteCount = countWords (Change.deleteText e)
  end.
Proof.
  intros (_ & Hdel & Hins & Hone & _).
  unfold plusMinusDisplayText, change_label. rewrite !count_guard.
  destruct Hdel as [(Hd & Htd & _)|(Hd & Htd & _)],
           Hins as [(Hi & Hti & _)|(Hi & Hti & _)];
    rewrite Hd, Hi in *; cbn; auto 10.
  destruct Hone; discriminate.
Qed.

(** X19 on the replacement of the specification. *)
Lemma row_shows_what_is_recorded_witness :
  change_label replaced_change = "replaced"%string /\
  Change.del replaced_change = Some true /\ Change.insert replaced_change = Some true /\
  Change.deleteText replaced_change <> None /\ Change.insertText replaced_change <> None /\
  2 = countWords (Change.deleteText replaced_change) /\
  2 = countWords (Change.insertText replaced_change).
Proof.
  apply (row_shows_what_is_recorded 0 replaced_change).
  split; [reflexivity|]. split; [left; repeat split; discriminate|].
  split; [left; repeat split; discriminate|]. split; [now left|].
  eexists. split; [reflexivity|]. repeat constructor; discriminate.
Defined.

(* ================================================================== *)
(** * Two passes *)
(* ================================================================== *)


Lemma preserves_throw {A} P e : preserves P (@throw World A e).
Proof. intros w H. exact H. Qed.


Section StillAccepting.

Variable t : Side.





End StillAccepting.



(* ================================================================== *)
(** * The word count, in general *)
(* ================================================================== *)

(** X21.  [countWords] of a text that is not empty is the number of
    its words (the maximal runs of characters that are not whitespace),
    and 1 when it has none; so it is never 0 on a text that is not
    empty. *)
Theorem countWords_counts_the_runs s :
  s <> EmptyString ->
  countWords (Some s) = Z.max 1 (Z.of_nat (word_runs s)) /\ 1 <= countWords (Some s).
Proof.
  intros Hs.
  assert (H : countWords (Some s) = Z.max 1 (Z.of_nat (word_runs s))).
  { destruct (word_runs s) as [|n] eqn:Hw.
    - rewrite (countWords_blank s Hs); [reflexivity|]. now apply all_space_runs.
    - rewrite countWords_runs by (rewrite Hw; discriminate). rewrite Hw. lia. }
  split; [exact H | lia].
Qed.

(** X21 on a text of three words. *)
Lemma countWords_counts_the_runs_witness :
  countWords (Some " one  two three "%string) = 3.
Proof.
  destruct (countWords_counts_the_runs " one  two three "%string) as [H _]; [discriminate|].
  rewrite H. reflexivity.
Defined.

(* ================================================================== *)
(** * The aggregator of the earlier page *)
(* ================================================================== *)

(** X22.  [processOperation] of the earlier page.  A delete or an insert
    whose operation has no block of the changed document throws before
    it writes anything, a delete too.  One that returns leaves, at every
    key that had an entry, an entry whose other side (the text and the
    flag the operation does not write) is as it was, and the entry of
    every key but the operation's as it was; and the rectangles of the
    page grow by the first block of the operation, on its own side
    only. *)
Theorem legacy_merge_keeps_the_other_side pageIndex op st :
  type op <> equal ->
  (changedTextBlocks op = [] ->
   Legacy.processOperation pageIndex op st = (st, Throw TypeError)) /\
  (forall st',
      Legacy.processOperation pageIndex op st = (st', Ok tt) ->
      (forall key existing,
          JsMap.get key (Legacy.changes st) = Some existing ->
          exists merged,
            JsMap.get key (Legacy.changes st') = Some merged /\
            (type op = delete ->
             Change.insertText merged = Change.insertText existing /\
             Change.insert merged = Change.insert existing) /\
            (type op = insert ->
             Change.deleteText merged = Change.deleteText existing /\
             Change.del merged = Change.del existing)) /\
      (forall block blocks key,
          changedTextBlocks op = block :: blocks ->
          key <> coordinate_of (rect block) ->
          JsMap.get key (Legacy.changes st') = JsMap.get key (Legacy.changes st)) /\
      (type op = delete ->
       Legacy.changedInstanceRects st' = Legacy.changedInstanceRects st /\
       exists block blocks,
         originalTextBlocks op = block :: blocks /\
         Legacy.originalInstanceRects st' =
           (Legacy.originalInstanceRects st ++ [rect_of (rect block)])%list) /\
      (type op = insert ->
       Legacy.originalInstanceRects st' = Legacy.originalInstanceRects st /\
       exists block blocks,
         changedTextBlocks op = block :: blocks /\
         Legacy.changedInstanceRects st' =
           (Legacy.changedInstanceRects st ++ [rect_of (rect block)])%list)).
Proof.
  intros Hty. split.
  - intros Hnone. unfold Legacy.processOperation. now rewrite Hnone.
  - intros st' Hrun. unfold Legacy.processOperation in Hrun.
    destruct (changedTextBlocks op) as [|block blocks] eqn:Hc; cbn [first_rect] in Hrun;
      unfold bind, throw, ret in Hrun; [discriminate|].
    assert (Hkeys : forall entry key existing,
               JsMap.get key (Legacy.changes st) = Some existing ->
               exists merged,
                 JsMap.get key (JsMap.set (coordinate_of (rect block)) entry
                                  (Legacy.changes st)) = Some merged /\
                 (key = coordinate_of (rect block) -> merged = entry) /\
                 (key <> coordinate_of (rect block) -> merged = existing)).
    { intros entry key existing Hget.
      destruct (String.eqb (coordinate_of (rect block)) key) eqn:E.
      - apply String.eqb_eq in E. subst key. exists entry.
        rewrite map_get_set_same. repeat split; congruence.
      - apply String.eqb_neq in E. exists existing.
        rewrite map_get_set_other by exact E. repeat split; congruence. }
    destruct (type op) eqn:Et; [congruence| |].
    + destruct (originalTextBlocks op) as [|oblock oblocks] eqn:Ho; cbn [first_rect] in Hrun;
        unfold throw, ret, modify in Hrun; [discriminate|].
      inversion Hrun; subst st'; clear Hrun. cbn [Legacy.changes Legacy.originalInstanceRects
        Legacy.changedInstanceRects]. split; [|split; [|split]].
      * intros key existing Hget.
        destruct (Hkeys (Legacy.change (Some (text op))
                           (Change.insertText
                              (Legacy.existing_or_empty (coordinate_of (rect block))
                                 (Legacy.changes st)))
                           (Some true)
                           (Change.insert
                              (Legacy.existing_or_empty (coordinate_of (rect block))
                                 (Legacy.changes st)))
                           pageIndex) key existing Hget) as (merged & Hm & Hsame & Hother).
        exists merged. split; [exact Hm|]. split; [|discriminate]. intros _.
        destruct (String.eqb (coordinate_of (rect block)) key) eqn:E.
        -- apply String.eqb_eq in E. rewrite (Hsame (eq_sym E)). subst key.
           unfold Legacy.existing_or_empty. rewrite Hget. split; reflexivity.
        -- apply String.eqb_neq in E. rewrite Hother by congruence. split; reflexivity.
      * intros b bs key Hb Hkey. inversion Hb; subst.
        apply map_get_set_other. congruence.
      * intros _. split; [reflexivity|]. now exists oblock, oblocks.
      * discriminate.
    + unfold modify in Hrun. inversion Hrun; subst st'; clear Hrun.
      cbn [Legacy.changes Legacy.originalInstanceRects Legacy.changedInstanceRects].
      split; [|split; [|split]].
      * intros key existing Hget.
        destruct (Hkeys (Legacy.change
                           (Change.deleteText
                              (Legacy.existing_or_empty (coordinate_of (rect block))
                                 (Legacy.changes st)))
                           (Some (text op))
                           (Change.del
                              (Legacy.existing_or_empty (coordinate_of (rect block))
                                 (Legacy.changes st)))
                           (Some true) pageIndex) key existing Hget)
          as (merged & Hm & Hsame & Hother).
        exists merged. split; [exact Hm|]. split; [discriminate|]. intros _.
        destruct (String.eqb (coordinate_of (rect block)) key) eqn:E.
        -- apply String.eqb_eq in E. rewrite (Hsame (eq_sym E)). subst key.
           unfold Legacy.existing_or_empty. rewrite Hget. split; reflexivity.
        -- apply String.eqb_neq in E. rewrite Hother by congruence. split; reflexivity.
      * intros b bs key Hb Hkey. inversion Hb; subst.
        apply map_get_set_other. congruence.
      * discriminate.
      * intros _. split; [reflexivity|]. now exists block, blocks.
Qed.

(** X22 on a delete that has no block of the changed document. *)
Lemma legacy_merge_keeps_the_other_side_witness :
  Legacy.processOperation 0 first_delete (Legacy.mkPageState [] [] [])
    = (Legacy.mkPageState [] [] [], Throw TypeError).
Proof.
  apply (proj1 (legacy_merge_keeps_the_other_side 0 first_delete
                  (Legacy.mkPageState [] [] []) ltac:(discriminate))).
  reflexivity.
Defined.
